(** * paper-fusion: the file list, intake and merge logic of [script.js]

    A shallow embedding of the browser script that collects PDF files in an
    ordered list and merges them.  The script is event driven: every handler
    ([handleFiles], the remove button, Sortable's [onEnd], the merge button,
    the clear button and the "Undo" toast action) is a function from the
    application state to the application state.

    JavaScript objects are shared by reference.  The records pushed on
    [filesArr] live in an object store ([heap]); arrays hold locations.
    The outside world (the File API, [crypto.subtle], pdf-lib, [Math.random])
    is an interface, class [World].

    Not modelled: the DOM rendering of the list ([renderFileList],
    [updateButtons], [updateSummary]), theme handling, timers, and the
    interleaving of two asynchronous handlers. *)

From Stdlib Require Import ZArith NArith String Ascii List Lia.
From stdpp Require Import base tactics option list numbers strings pretty relations gmap sorting.

Local Open Scope string_scope.
Local Open Scope N_scope.

(** ** Strings as the script uses them *)

(** [String.prototype.toLowerCase], on the ASCII letters. *)
Definition lower_ascii (c : ascii) : ascii :=
  let n := nat_of_ascii c in
  if ((65 <=? n)%nat && (n <=? 90)%nat)%bool then ascii_of_nat (n + 32) else c.

Fixpoint toLowerCase (s : string) : string :=
  match s with
  | EmptyString => EmptyString
  | String c s' => String (lower_ascii c) (toLowerCase s')
  end.

(** [s.startsWith(p)] *)
Definition startsWith (s p : string) : bool := String.prefix p s.

(** [s.endsWith(p)] *)
Definition endsWith (s p : string) : bool :=
  let ls := String.length s in
  let lp := String.length p in
  ((lp <=? ls)%nat && bool_decide (String.substring (ls - lp) lp s = p))%bool.

(** [s.includes(p)] *)
Fixpoint includes (s p : string) : bool :=
  (String.prefix p s ||
   match s with
   | EmptyString => false
   | String _ s' => includes s' p
   end)%bool.

(** [s.slice(from, to)] for [0 <= from <= to]. *)
Definition slice (s : string) (from to : nat) : string :=
  String.substring from (to - from) s.

(** [String(n).padStart(2,'0')] *)
Definition padStart2 (n : N) : string :=
  let t := pretty n in
  if (String.length t <? 2)%nat then "0" +:+ t else t.

(** ** Configuration constants *)

Record Config := {
  MAX_FILE_SIZE : N;
  MAX_TOTAL_SIZE : N;
  MAX_FILE_COUNT : nat;
  LARGE_OUTPUT_THRESHOLD : N
}.

Definition CONFIG : Config := {|
  MAX_FILE_SIZE := 100 * 1024 * 1024;
  MAX_TOTAL_SIZE := 500 * 1024 * 1024;
  MAX_FILE_COUNT := 50;
  LARGE_OUTPUT_THRESHOLD := 200
|}.

(** ** formatBytes

    The divisions are by 1024, so they are exact on a double for every size
    below 2^53; [toFixed] then rounds the exact quotient to the nearest
    decimal, ties upwards.  The model computes the same digits on integers:
    after [k] divisions the value is [bytes / 1024^k]. *)

Definition units : list string := ["KB"; "MB"; "GB"; "TB"].

(** number of executions of the do-while body *)
Fixpoint formatBytes_divs (fuel : nat) (bytes : N) (k : nat) : nat :=
  match fuel with
  | O => k
  | S fuel' =>
      if ((1024 ^ N.of_nat (S k) <=? bytes) && (k - 1 <? length units - 1)%nat)%bool
      then formatBytes_divs fuel' bytes (S k) else k
  end.

(** [x.toFixed(d)] for [x = num / den] *)
Definition toFixed (num den : N) (d : nat) : string :=
  let scale := 10 ^ N.of_nat d in
  let n := (2 * num * scale + den) / (2 * den) in
  let frac := pretty (n mod scale) in
  pretty (n / scale) +:+ "." +:+
  String.concat "" (replicate (d - String.length frac) "0") +:+ frac.

Definition formatBytes (bytes : N) : string :=
  if bytes <? 1024 then pretty bytes +:+ " B"
  else
    let k := formatBytes_divs 3 bytes 1 in
    let den := 1024 ^ N.of_nat k in
    toFixed bytes den (if bytes <? 10 * den then 2 else 1) +:+ " " +:+
    default "" (units !! (k - 1)%nat).

(** ** Thrown values *)

Record JsError := {
  err_message : string;   (* err.message *)
  err_string : string     (* String(err) *)
}.

(** [err.message || String(err)] *)
Definition errorMsg_of (err : JsError) : string :=
  if bool_decide (err_message err = "") then err_string err else err_message err.

(** ** The world outside the script *)

Class World := {
  (** contents of an [ArrayBuffer] *)
  Bytes : Type;
  (** a page of a PDF document *)
  Page : Type;
  (** [String.fromCharCode] of the first five bytes *)
  header_of : Bytes -> string;
  (** [crypto.subtle.digest('SHA-256', buffer)]; [None] when it throws *)
  subtle_digest : Bytes -> option (list Byte.byte);
  (** [PDFLib.PDFDocument.load(bytes, options)] followed by reading the
      pages; both call sites pass the same options *)
  PDFDocument_load : Bytes -> JsError + list Page;
  (** the text [Math.random().toString(36)] of the k-th call *)
  Math_random_36 : nat -> string;
  (** a SHA-256 digest has 32 bytes *)
  subtle_digest_length :
    forall buffer hashArray,
      subtle_digest buffer = Some hashArray -> length hashArray = 32%nat
}.

(** ** Data *)

Definition loc := nat.

Inductive ToastType := TSuccess | TError | TInfo.

Record Toast := {
  title : string;
  message : string;
  type : ToastType;
  timeoutMs : N;
  actionLabel : option string;
  (** the closure of the clear handler; it captures [previousFiles] *)
  onAction : option (list loc)
}.

Definition mkToast (ti msg : string) (ty : ToastType) (ms : N) : Toast :=
  {| title := ti; message := msg; type := ty; timeoutMs := ms;
     actionLabel := None; onAction := None |}.

Record DateTime := {
  getFullYear : N; getMonth : N; getDate : N; getHours : N; getMinutes : N
}.

Section Model.
Context `{W : World}.

(** a [File] of the File API *)
Record File := {
  file_name : string;
  file_type : string;
  file_size : N;
  (** [await file.arrayBuffer()] *)
  file_arrayBuffer : JsError + Bytes
}.

(** an element of [filesArr]: [{ file, name, size, pageCount, id, rawBytes, hash }] *)
Record FileRecord := {
  rec_file : File;
  rec_name : string;
  rec_size : N;
  rec_pageCount : N;
  rec_id : string;
  rec_rawBytes : option Bytes;
  rec_hash : option string
}.

(** the blob handed to the browser for download *)
Record Download := {
  dl_filename : string;
  dl_pages : list Page
}.

Record App := {
  (** the record objects ever created; a location is an index *)
  heap : list FileRecord;
  (** [filesArr] *)
  filesArr : list loc;
  (** the calls of [showToast], oldest first; a toast whose action button
      was clicked has lost its action *)
  toasts : list Toast;
  (** the widths given to the progress bar, in percent, oldest first *)
  progress : list N;
  (** the downloads triggered, oldest first *)
  downloads : list Download;
  (** number of calls of [Math.random] so far *)
  rng : nat
}.

Definition init : App :=
  {| heap := []; filesArr := []; toasts := []; progress := [];
     downloads := []; rng := 0 |}.

Definition set_heap (h : list FileRecord) (s : App) : App :=
  {| heap := h; filesArr := filesArr s; toasts := toasts s;
     progress := progress s; downloads := downloads s; rng := rng s |}.

Definition set_filesArr (l : list loc) (s : App) : App :=
  {| heap := heap s; filesArr := l; toasts := toasts s;
     progress := progress s; downloads := downloads s; rng := rng s |}.

Definition showToast (t : Toast) (s : App) : App :=
  {| heap := heap s; filesArr := filesArr s; toasts := toasts s ++ [t];
     progress := progress s; downloads := downloads s; rng := rng s |}.

Definition set_progress (p : N) (s : App) : App :=
  {| heap := heap s; filesArr := filesArr s; toasts := toasts s;
     progress := progress s ++ [p]; downloads := downloads s; rng := rng s |}.

Definition add_download (d : Download) (s : App) : App :=
  {| heap := heap s; filesArr := filesArr s; toasts := toasts s;
     progress := progress s; downloads := downloads s ++ [d]; rng := rng s |}.

Definition no_file : File :=
  {| file_name := ""; file_type := ""; file_size := 0;
     file_arrayBuffer := inl {| err_message := ""; err_string := "" |} |}.

#[export] Instance FileRecord_inhabited : Inhabited FileRecord :=
  populate {| rec_file := no_file; rec_name := ""; rec_size := 0;
              rec_pageCount := 0; rec_id := ""; rec_rawBytes := None;
              rec_hash := None |}.

(** the object a location refers to *)
Definition deref (s : App) (a : loc) : FileRecord := heap s !!! a.

(** [filesArr] as the script sees it: the objects, in order *)
Definition records (s : App) : list FileRecord := deref s <$> filesArr s.

(** ** Helpers of the script *)

(** [uid()]: [Math.random().toString(36).slice(2,9)] *)
Definition uid (s : App) : string * App :=
  (slice (Math_random_36 (rng s)) 2 9,
   {| heap := heap s; filesArr := filesArr s; toasts := toasts s;
      progress := progress s; downloads := downloads s; rng := S (rng s) |}).

Definition hexdigit (n : nat) : ascii :=
  if (n <? 10)%nat then ascii_of_nat (48 + n) else ascii_of_nat (87 + n).

(** [b.toString(16).padStart(2,'0')] *)
Definition hex2 (b : Byte.byte) : string :=
  let n := Byte.to_nat b in
  String (hexdigit (n / 16)) (String (hexdigit (n mod 16)) EmptyString).

(** [hashFile(buffer)]: the digest in hexadecimal, [None] for [null] *)
Definition hashFile (buffer : Bytes) : option string :=
  match subtle_digest buffer with
  | Some hashArray => Some (String.concat "" (hex2 <$> hashArray))
  | None => None
  end.

Definition validateFile (file : File) : list string :=
  (if MAX_FILE_SIZE CONFIG <? file_size file
   then ["File exceeds " +:+ formatBytes (MAX_FILE_SIZE CONFIG) +:+ " limit"]
   else []) ++
  (if file_size file =? 0 then ["File is empty"] else []).

(** [filesArr.reduce((sum, f) => sum + f.size, 0)] *)
Definition getTotalSize (s : App) : N :=
  foldl (fun sum f => sum + rec_size f) 0 (records s).

(** ** File intake: [handleFiles] *)

(** the predicate of [files.filter(...)] *)
Definition is_pdf_candidate (f : File) : bool :=
  let name := toLowerCase (file_name f) in
  let hasPdfExtension := endsWith name ".pdf" in
  let hasPdfType :=
    (bool_decide (file_type f = "application/pdf") ||
     bool_decide (file_type f = ""))%bool in
  (hasPdfExtension ||
   (hasPdfType && bool_decide (file_type f = "application/pdf")))%bool.

(** the three counters of a batch *)
Record Counts := {
  addedCount : nat;
  skippedCount : nat;
  errorCount : nat
}.

Definition incr_added (c : Counts) : Counts :=
  {| addedCount := S (addedCount c); skippedCount := skippedCount c;
     errorCount := errorCount c |}.
Definition incr_skipped (c : Counts) : Counts :=
  {| addedCount := addedCount c; skippedCount := S (skippedCount c);
     errorCount := errorCount c |}.
Definition incr_error (c : Counts) : Counts :=
  {| addedCount := addedCount c; skippedCount := skippedCount c;
     errorCount := S (errorCount c) |}.

(** how an iteration of the [for] loop ends *)
Inductive Flow := Continue | Break.

(** the predicate of [filesArr.find(...)]:
    [(hash && x.hash === hash) || (x.name === file.name && x.size === file.size)] *)
Definition is_duplicate_of (file : File) (hash : option string) (x : FileRecord) : bool :=
  (match hash with
   | Some h => negb (bool_decide (h = "")) && bool_decide (rec_hash x = Some h)
   | None => false
   end ||
   (bool_decide (rec_name x = file_name file) && (rec_size x =? file_size file)))%bool.

(** the [catch (err)] block of the loop body *)
Definition intake_catch (file : File) (err : JsError) (s : App) (c : Counts)
  : Flow * (App * Counts) :=
  let errorMsg := errorMsg_of err in
  let userMessage :=
    if includes errorMsg "encrypted" then "File is encrypted or password protected"
    else if (includes errorMsg "Invalid" || includes errorMsg "invalid")%bool
         then "Not a valid PDF file"
    else if includes errorMsg "header" then "File appears to be corrupted"
    else if includes errorMsg "arrayBuffer" then "Failed to read file data"
    else "Failed to process file" in
  (Continue,
   (showToast (mkToast "Cannot process file"
                 (file_name file +:+ ": " +:+ userMessage) TError 4000) s,
    incr_error c)).

(** [filesArr.push({...})]: a new object, appended *)
Definition push (r : FileRecord) (s : App) : App :=
  {| heap := heap s ++ [r]; filesArr := filesArr s ++ [length (heap s)];
     toasts := toasts s; progress := progress s; downloads := downloads s;
     rng := rng s |}.

(** one iteration of [for (const file of pdfs)] *)
Definition intake_step (file : File) (s : App) (c : Counts) : Flow * (App * Counts) :=
  match validateFile file with
  | e :: _ =>
      (Continue,
       (showToast (mkToast "Invalid file" (file_name file +:+ ": " +:+ e) TError 3500) s,
        incr_error c))
  | [] =>
      if MAX_TOTAL_SIZE CONFIG <? getTotalSize s + file_size file then
        (Break,
         (showToast (mkToast "Size limit exceeded"
                       ("Total size would exceed " +:+ formatBytes (MAX_TOTAL_SIZE CONFIG))
                       TError 2500) s,
          c))
      else
        match file_arrayBuffer file with
        | inl err => intake_catch file err s c
        | inr bytes =>
            let hash := hashFile bytes in
            match List.find (is_duplicate_of file hash) (records s) with
            | Some existing => (Continue, (s, incr_skipped c))
            | None =>
                let headerStr := header_of bytes in
                if negb (startsWith headerStr "%PDF-") then
                  (Continue,
                   (showToast (mkToast "Invalid file"
                                 (file_name file +:+ " is not a valid PDF file")
                                 TError 3500) s,
                    incr_error c))
                else
                  match PDFDocument_load bytes with
                  | inl err => intake_catch file err s c
                  | inr pdfDoc =>
                      let pages := N.of_nat (length pdfDoc) in
                      let '(id, s1) := uid s in
                      (Continue,
                       (push {| rec_file := file; rec_name := file_name file;
                                rec_size := file_size file; rec_pageCount := pages;
                                rec_id := id; rec_rawBytes := Some bytes;
                                rec_hash := hash |} s1,
                        incr_added c))
                  end
            end
        end
  end.

Fixpoint intake_loop (pdfs : list File) (s : App) (c : Counts) : App * Counts :=
  match pdfs with
  | [] => (s, c)
  | file :: rest =>
      match intake_step file s c with
      | (Break, sc) => sc
      | (Continue, (s', c')) => intake_loop rest s' c'
      end
  end.

(** the feedback after the loop *)
Definition intake_feedback (c : Counts) (s : App) : App :=
  if (0 <? addedCount c)%nat then
    let msg := pretty (addedCount c) +:+ " file" +:+
               (if (1 <? addedCount c)%nat then "s" else "") +:+ " added." in
    let msg :=
      if (0 <? skippedCount c)%nat then
        msg +:+ " " +:+ pretty (skippedCount c) +:+ " duplicate" +:+
        (if (1 <? skippedCount c)%nat then "s" else "") +:+ " skipped."
      else msg in
    showToast (mkToast "Files added" msg TSuccess 2500) s
  else if (0 <? skippedCount c)%nat then
    showToast (mkToast "No new files"
                 ("All " +:+ pretty (skippedCount c) +:+ " file" +:+
                  (if (1 <? skippedCount c)%nat then "s were" else " was") +:+
                  " already added.") TInfo 2500) s
  else s.

Definition handleFiles (files : list File) (s : App) : App :=
  if bool_decide (files = []) then s
  else
    let pdfs := List.filter is_pdf_candidate files in
    if bool_decide (pdfs = []) then
      showToast (mkToast "Unsupported files" "Please add PDF files only." TError 2500) s
    else if (MAX_FILE_COUNT CONFIG <? length (filesArr s) + length pdfs)%nat then
      showToast (mkToast "Too many files"
                   ("Maximum " +:+ pretty (MAX_FILE_COUNT CONFIG) +:+
                    " files allowed. You tried to add " +:+
                    pretty (length pdfs) +:+ " more.") TError 2500) s
    else
      let '(s', c) := intake_loop pdfs s {| addedCount := 0; skippedCount := 0;
                                            errorCount := 0 |} in
      intake_feedback c s'.

(** ** The file list: removal and reordering *)

(** [item.rawBytes = null] *)
Definition release (r : FileRecord) : FileRecord :=
  {| rec_file := rec_file r; rec_name := rec_name r; rec_size := rec_size r;
     rec_pageCount := rec_pageCount r; rec_id := rec_id r; rec_rawBytes := None;
     rec_hash := rec_hash r |}.

(** the click handler of the remove button rendered for the object [target] *)
Definition remove_click (target : loc) (s : App) : App :=
  let f := deref s target in
  let removed :=
    List.find (fun x => bool_decide (rec_id (deref s x) = rec_id f)) (filesArr s) in
  let s1 :=
    match removed with
    | Some x => set_heap (alter release x (heap s)) s
    | None => s
    end in
  let s2 :=
    set_filesArr
      (List.filter (fun x => negb (bool_decide (rec_id (deref s1 x) = rec_id f)))
         (filesArr s1)) s1 in
  showToast (mkToast "Removed" (rec_name f +:+ " removed") TInfo 2000) s2.

(** [arr.splice(to, 0, moved)] *)
Definition splice_insert {A} (to : nat) (moved : A) (arr : list A) : list A :=
  take to arr ++ moved :: drop to arr.

(** Sortable's [onEnd] with [evt.oldIndex = from], [evt.newIndex = to].
    Sortable reports the index of an item of the list; for [from] out of
    range the script would splice [undefined] into the array, which is no
    list of records: [None]. *)
Definition onEnd (from to : nat) (s : App) : option App :=
  match filesArr s !! from with
  | Some moved =>
      Some (set_filesArr (splice_insert to moved (delete from (filesArr s))) s)
  | None => None
  end.

(** ** Merging *)

(** [Math.round((added / Math.max(1, totalPages)) * 100)].  The script
    computes on doubles; the model rounds the exact quotient, ties upwards. *)
Definition percent (added totalPages : N) : N :=
  let m := N.max 1 totalPages in
  (200 * added + m) / (2 * m).

(** [filesArr.reduce((s, f) => s + (f.pageCount || 0), 0)] *)
Definition totalPagesOf (items : list FileRecord) : N :=
  foldl (fun t f => t + rec_pageCount f) 0 items.

(** [PDFDocument.load(item.rawBytes, ...)] and [copyPages] of all its pages;
    pdf-lib throws a [TypeError] on [null]. *)
Definition load_item (item : FileRecord) : JsError + list Page :=
  match rec_rawBytes item with
  | Some bytes => PDFDocument_load bytes
  | None => inl {| err_message := "`pdf` must be of type `string` or `Uint8Array` or `ArrayBuffer`";
                   err_string := "TypeError" |}
  end.

(** the local state of the merge loop: the pages of [outPdf], [added] *)
Record MergeLoop := {
  outPdf : list Page;
  added : N
}.

(** one iteration of [for (const item of filesArr)] *)
Definition merge_step (totalPages : N) (st : MergeLoop * App) (item : FileRecord)
  : MergeLoop * App :=
  let '(m, s) := st in
  match load_item item with
  | inr srcPages =>
      let added' :=
        added m + (if rec_pageCount item =? 0 then N.of_nat (length srcPages)
                   else rec_pageCount item) in
      ({| outPdf := outPdf m ++ srcPages; added := added' |},
       set_progress (percent added' totalPages) s)
  | inl itemErr =>
      (m, showToast (mkToast "Partial failure"
                       ("Skipped " +:+ rec_name item +:+ " due to error") TError 3500) s)
  end.

Definition merge_loop (totalPages : N) (items : list FileRecord) (s : App)
  : MergeLoop * App :=
  foldl (merge_step totalPages) ({| outPdf := []; added := 0 |}, s) items.

(** [cleanupMemory()] *)
Definition cleanupMemory (s : App) : App :=
  set_heap (foldl (fun h x => alter release x h) (heap s) (filesArr s)) s.

(** the file name of the download *)
Definition merged_filename (now : DateTime) : string :=
  "merged-" +:+ pretty (getFullYear now) +:+ padStart2 (getMonth now + 1) +:+
  padStart2 (getDate now) +:+ "_" +:+ padStart2 (getHours now) +:+
  padStart2 (getMinutes now) +:+ ".pdf".

(** the message of the "Merge failed" toast *)
Definition truncate_msg (errorMsg : string) : string :=
  if (100 <? String.length errorMsg)%nat
  then String.substring 0 97 errorMsg +:+ "..." else errorMsg.

(** the click handler of the merge button.  [proceed] is the answer to
    [confirm(...)], asked only above the threshold; [now] is [new Date()].
    Creating and serialising the output document are taken to succeed. *)
Definition mergeBtn_click (proceed : bool) (now : DateTime) (s : App) : App :=
  if bool_decide (filesArr s = []) then s
  else
    let totalPages := totalPagesOf (records s) in
    if ((LARGE_OUTPUT_THRESHOLD CONFIG <? totalPages) && negb proceed)%bool then s
    else
      let s0 := set_progress 0 s in
      let '(m, s1) := merge_loop totalPages (records s0) s0 in
      if added m =? 0 then
        showToast (mkToast "Merge failed"
                     (truncate_msg "No pages were successfully merged") TError 5000) s1
      else
        let filename := merged_filename now in
        let s2 := add_download {| dl_filename := filename; dl_pages := outPdf m |} s1 in
        let s3 := set_progress 100 s2 in
        let s4 :=
          showToast (mkToast "Success!"
                       ("Merged " +:+ pretty (added m) +:+ " pages into " +:+ filename)
                       TSuccess 4000) s3 in
        cleanupMemory s4.

(** ** Clearing and undoing *)

(** the click handler of the clear button *)
Definition clearBtn_click (s : App) : App :=
  if bool_decide (filesArr s = []) then s
  else
    let previousFiles := filesArr s in   (* [slice()]: the same objects *)
    let s1 := cleanupMemory s in
    let s2 := set_filesArr [] s1 in
    showToast {| title := "Cleared"; message := "All files removed.";
                 type := TSuccess; timeoutMs := 2500;
                 actionLabel := Some "Undo"; onAction := Some previousFiles |} s2.

Definition disarm (t : Toast) : Toast :=
  {| title := title t; message := message t; type := type t;
     timeoutMs := timeoutMs t; actionLabel := actionLabel t; onAction := None |}.

(** the click on the action button of the [k]-th toast: the toast goes
    away and its [onAction] runs.  [None] when that toast has no action. *)
Definition toast_action_click (k : nat) (s : App) : option App :=
  match toasts s !! k with
  | Some t =>
      match onAction t with
      | Some previousFiles =>
          let s1 :=
            {| heap := heap s; filesArr := previousFiles;
               toasts := <[k := disarm t]> (toasts s);
               progress := progress s; downloads := downloads s; rng := rng s |} in
          Some (showToast (mkToast "Restored" "Files restored." TSuccess 2500) s1)
      | None => None
      end
  | None => None
  end.

(** ** The states the application can be in *)

Inductive Event :=
| EvFiles (files : list File)
| EvRemove (target : loc)
| EvReorder (from to : nat)
| EvMerge (proceed : bool) (now : DateTime)
| EvClear
| EvUndo (k : nat).

Definition handle (e : Event) (s : App) : option App :=
  match e with
  | EvFiles files => Some (handleFiles files s)
  | EvRemove target =>
      if bool_decide (target ∈ filesArr s) then Some (remove_click target s) else None
  | EvReorder from to => onEnd from to s
  | EvMerge proceed now => Some (mergeBtn_click proceed now s)
  | EvClear => Some (clearBtn_click s)
  | EvUndo k => toast_action_click k s
  end.

Inductive reachable : App -> Prop :=
| reachable_init : reachable init
| reachable_step e s s' : reachable s -> handle e s = Some s' -> reachable s'.

End Model.


(** * More of the script: escaping, the theme *)

(** ** escapeHtml *)

(** [s.replaceAll(c, rep)] for a pattern of one character *)
Fixpoint replaceAll (s : string) (c : ascii) (rep : string) : string :=
  match s with
  | EmptyString => EmptyString
  | String a s' =>
      if bool_decide (a = c) then rep +:+ replaceAll s' c rep
      else String a (replaceAll s' c rep)
  end.

(** the double quote *)
Definition dquote : ascii := ascii_of_nat 34.

(** [escapeHtml(s)] for a string [s]; [String(s || '')] is [s] itself *)
Definition escapeHtml (s : string) : string :=
  let text := s in
  replaceAll
    (replaceAll
       (replaceAll
          (replaceAll (replaceAll text "&" "&amp;") "<" "&lt;")
          ">" "&gt;")
       dquote "&quot;")
    "'" "&#39;".

(** [sanitizeHtml(html)]; [DOMPurify] is [None] when the library did not load *)
Definition sanitizeHtml (DOMPurify : option (string -> string)) (html : string) : string :=
  match DOMPurify with
  | Some sanitize => sanitize html
  | None => escapeHtml html
  end.

(** ** The theme *)

Definition PREF_KEY : string := "pf-theme".

(** what the theme code reads and writes: the class list of the root
    element and the local storage *)
Record ThemeState := {
  classList : gset string;
  localStorage : gmap string string
}.

(** [applyTheme(theme)] *)
Definition applyTheme (theme : string) (st : ThemeState) : ThemeState :=
  if bool_decide (theme = "dark")
  then {| classList := classList st ∪ {["dark"]}; localStorage := localStorage st |}
  else {| classList := classList st ∖ {["dark"]}; localStorage := localStorage st |}.

(** [initTheme()]; [prefersDark] is the answer of
    [window.matchMedia('(prefers-color-scheme: dark)')], false without
    [matchMedia].  A saved empty string is falsy. *)
Definition initTheme (prefersDark : bool) (st : ThemeState) : ThemeState :=
  match localStorage st !! PREF_KEY with
  | Some saved =>
      if bool_decide (saved = "") then
        applyTheme (if prefersDark then "dark" else "light") st
      else applyTheme saved st
  | None => applyTheme (if prefersDark then "dark" else "light") st
  end.

(** the click handler of the theme toggle: [classList.toggle('dark')], then
    [localStorage.setItem] *)
Definition themeToggle_click (st : ThemeState) : ThemeState :=
  let isDark := negb (bool_decide ("dark" ∈ classList st)) in
  {| classList := if isDark then classList st ∪ {["dark"]}
                  else classList st ∖ {["dark"]};
     localStorage := <[PREF_KEY := if isDark then "dark" else "light"]> (localStorage st) |}.

(** ** A sample world

    Buffers are described by what the outside world answers for them: the
    first five bytes, the byte the digest is filled with (or a failing
    digest), and the parsed document (pages are named by strings). *)

Module Sample.

Record SampleBytes := {
  sb_header : string;
  sb_digest : option Byte.byte;
  sb_doc : JsError + list string
}.

Definition sample_digest (b : SampleBytes) : option (list Byte.byte) :=
  match sb_digest b with
  | Some x => Some (replicate 32 x)
  | None => None
  end.

Definition world (random : nat -> string) : World := {|
  Bytes := SampleBytes;
  Page := string;
  header_of := sb_header;
  subtle_digest := sample_digest;
  PDFDocument_load := sb_doc;
  Math_random_36 := random;
  subtle_digest_length :=
    ltac:(intros b d; unfold sample_digest; destruct (sb_digest b); intros H;
          [injection H as <-; reflexivity | discriminate])
|}.

(** [Math.random] never repeating itself: "0.", then six zeros and the digits of [k] *)
Definition counting (k : nat) : string := "0.000000" +:+ pretty k.

(** [Math.random] returning the same number at every call *)
Definition stuck (k : nat) : string := "0.4fzyo82mvyr".

Definition pdf_bytes (fill : option Byte.byte) (pages : list string) : SampleBytes :=
  {| sb_header := "%PDF-"; sb_digest := fill; sb_doc := inr pages |}.

Definition pdf_file `{W : World} (name : string) (size : N) (b : Bytes) : File :=
  {| file_name := name; file_type := "application/pdf"; file_size := size;
     file_arrayBuffer := inr b |}.

Definition MB : N := 1024 * 1024.

End Sample.

(** * Notions the properties are stated with *)

Section Statements.
Context `{W : World}.
Local Open Scope list_scope.

Implicit Types (s : App) (r x : FileRecord) (file : File) (c : Counts).

(** every location of [filesArr] refers to an object *)
Definition wf (s : App) : Prop :=
  Forall (fun a => (a < length (heap s))%nat) (filesArr s).

(** the object [filesArr.push] appends for a candidate, in the state [s] *)
Definition new_record (file : File) (bytes : Bytes) (pdfDoc : list Page) (s : App)
  : FileRecord :=
  {| rec_file := file; rec_name := file_name file; rec_size := file_size file;
     rec_pageCount := N.of_nat (length pdfDoc); rec_id := (uid s).1;
     rec_rawBytes := Some bytes; rec_hash := hashFile bytes |}.

(** what an iteration can do to the state: nothing, a toast, or a push *)
Inductive step_outcome (file : File) (s : App) (c : Counts)
  : Flow * (App * Counts) -> Prop :=
| outcome_error t :
    type t = TError -> onAction t = None ->
    step_outcome file s c (Continue, (showToast t s, incr_error c))
| outcome_cutoff t :
    type t = TError -> onAction t = None ->
    validateFile file = [] ->
    MAX_TOTAL_SIZE CONFIG < getTotalSize s + file_size file ->
    step_outcome file s c (Break, (showToast t s, c))
| outcome_skipped bytes existing :
    validateFile file = [] ->
    getTotalSize s + file_size file <= MAX_TOTAL_SIZE CONFIG ->
    file_arrayBuffer file = inr bytes ->
    List.find (is_duplicate_of file (hashFile bytes)) (records s) = Some existing ->
    step_outcome file s c (Continue, (s, incr_skipped c))
| outcome_added bytes pdfDoc :
    validateFile file = [] ->
    getTotalSize s + file_size file <= MAX_TOTAL_SIZE CONFIG ->
    file_arrayBuffer file = inr bytes ->
    List.find (is_duplicate_of file (hashFile bytes)) (records s) = None ->
    startsWith (header_of bytes) "%PDF-" = true ->
    PDFDocument_load bytes = inr pdfDoc ->
    step_outcome file s c
      (Continue, (push (new_record file bytes pdfDoc s) (uid s).2, incr_added c)).

(** the filter in the words of the specification: the lowercased name ends
    in ".pdf", or the declared type is "application/pdf" *)
Definition spec_is_pdf (f : File) : bool :=
  (endsWith (toLowerCase (file_name f)) ".pdf" ||
   bool_decide (file_type f = "application/pdf"))%bool.

Definition unsupported_toast : Toast :=
  mkToast "Unsupported files" "Please add PDF files only." TError 2500.

Definition size_limit_toast : Toast :=
  mkToast "Size limit exceeded"
    ("Total size would exceed " +:+ formatBytes (MAX_TOTAL_SIZE CONFIG)) TError 2500.

(** a candidate and a record have the same name and the same size *)
Definition same_name_size (file : File) (x : FileRecord) : Prop :=
  rec_name x = file_name file /\ rec_size x = file_size file.

(** the content hash of a candidate is the hash of a record *)
Definition same_hash (file : File) (x : FileRecord) : Prop :=
  exists bytes h,
    file_arrayBuffer file = inr bytes /\ hashFile bytes = Some h /\ rec_hash x = Some h.

(** a candidate that goes through every check before the duplicate
    detection: it is valid, it fits under the total, its bytes can be read *)
Definition reaches_duplicate_check (file : File) (s : App) : Prop :=
  validateFile file = [] /\
  getTotalSize s + file_size file <= MAX_TOTAL_SIZE CONFIG /\
  exists bytes, file_arrayBuffer file = inr bytes.

(** a candidate that passes every check other than the duplicate detection *)
Definition acceptable (file : File) (bytes : Bytes) (pdfDoc : list Page) (s : App) : Prop :=
  validateFile file = [] /\
  getTotalSize s + file_size file <= MAX_TOTAL_SIZE CONFIG /\
  file_arrayBuffer file = inr bytes /\
  startsWith (header_of bytes) "%PDF-" = true /\
  PDFDocument_load bytes = inr pdfDoc.

(** the pages a record brings to the merge: those of its document, none
    when loading it fails *)
Definition pages_of (item : FileRecord) : list Page :=
  match load_item item with
  | inr srcPages => srcPages
  | inl _ => []
  end.

(** what a record adds to the counter [added] *)
Definition credit_of (item : FileRecord) : N :=
  match load_item item with
  | inr srcPages =>
      if rec_pageCount item =? 0 then N.of_nat (length srcPages) else rec_pageCount item
  | inl _ => 0
  end.

Definition merge_credit (items : list FileRecord) : N :=
  foldr (fun item acc => credit_of item + acc) 0 items.

(** loading or copying the document of a record throws *)
Definition copy_fails (item : FileRecord) : bool :=
  match load_item item with
  | inl _ => true
  | inr _ => false
  end.

(** the user called the merge off at the confirmation prompt *)
Definition merge_declined (proceed : bool) (s : App) : bool :=
  ((LARGE_OUTPUT_THRESHOLD CONFIG <? totalPagesOf (records s)) && negb proceed)%bool.

Definition partial_failure_toast (item : FileRecord) : Toast :=
  mkToast "Partial failure" ("Skipped " +:+ rec_name item +:+ " due to error") TError 3500.

Definition merge_failed_toast : Toast :=
  mkToast "Merge failed" "No pages were successfully merged" TError 5000.

Definition cleared_toast (previousFiles : list loc) : Toast :=
  {| title := "Cleared"; message := "All files removed."; type := TSuccess;
     timeoutMs := 2500; actionLabel := Some "Undo"; onAction := Some previousFiles |}.

Definition restored_toast : Toast :=
  mkToast "Restored" "Files restored." TSuccess 2500.

(** ** Invariants *)

(** the k-th identifier [uid()] hands out *)
Definition uid_at (k : nat) : string := slice (Math_random_36 k) 2 9.

(** the page count of a record is the one of the document in its buffer *)
Definition probed (r : FileRecord) : Prop :=
  match rec_rawBytes r with
  | Some bytes =>
      exists pdfDoc,
        PDFDocument_load bytes = inr pdfDoc /\
        rec_pageCount r = N.of_nat (length pdfDoc)
  | None => True
  end.

(** the sizes of the objects an array refers to, summed *)
Definition total_size_at (h : list FileRecord) (l : list loc) : N :=
  foldr (fun a acc => rec_size (h !!! a) + acc) 0 l.

(** an array of the store: its locations exist, none occurs twice, and the
    sizes stay under the ceiling *)
Definition good (h : list FileRecord) (l : list loc) : Prop :=
  Forall (fun a => (a < length h)%nat) l /\
  NoDup l /\
  total_size_at h l <= MAX_TOTAL_SIZE CONFIG.

Record Inv (s : App) : Prop := {
  inv_list : good (heap s) (filesArr s);
  inv_probed : Forall probed (heap s);
  (** the arrays captured by the pending "Undo" actions *)
  inv_undo : forall t previousFiles,
    t ∈ toasts s -> onAction t = Some previousFiles -> good (heap s) previousFiles;
  inv_progress : Forall (fun p => p <= 100) (progress s)
}.

(** the identifiers of the objects are distinct draws of [uid()] *)
Definition IdInv (s : App) : Prop :=
  NoDup (rec_id <$> heap s) /\
  Forall (fun r => exists k, (k < rng s)%nat /\ rec_id r = uid_at k) (heap s).

(** the elementary changes of the state the handlers are made of *)
Inductive prim : App -> App -> Prop :=
| prim_toast s t :
    onAction t = None -> prim s (showToast t s)
| prim_progress s p :
    p <= 100 -> prim s (set_progress p s)
| prim_download s d :
    prim s (add_download d s)
| prim_push s file bytes pdfDoc :
    getTotalSize s + file_size file <= MAX_TOTAL_SIZE CONFIG ->
    PDFDocument_load bytes = inr pdfDoc ->
    prim s (push (new_record file bytes pdfDoc s) (uid s).2)
| prim_release s (a : loc) :
    prim s (set_heap (alter release a (heap s)) s)
| prim_select s l :
    l ⊆+ filesArr s -> prim s (set_filesArr l s)
| prim_clear s :
    prim s (showToast (cleared_toast (filesArr s)) (set_filesArr [] s))
| prim_undo s k t previousFiles :
    toasts s !! k = Some t -> onAction t = Some previousFiles ->
    prim s {| heap := heap s; filesArr := previousFiles;
              toasts := <[k := disarm t]> (toasts s);
              progress := progress s; downloads := downloads s; rng := rng s |}.

(** the progress values of a merge in the words of the specification: after
    each record whose pages are copied, the percentage of the pages copied
    so far among the pages expected *)
Fixpoint spec_progress (totalPages copied : N) (items : list FileRecord) : list N :=
  match items with
  | [] => []
  | item :: rest =>
      match load_item item with
      | inr srcPages =>
          let copied' := copied + N.of_nat (length srcPages) in
          percent copied' totalPages :: spec_progress totalPages copied' rest
      | inl _ => spec_progress totalPages copied rest
      end
  end.

End Statements.

(** * Further notions *)

Section MoreStatements.
Context `{W : World}.
Local Open Scope list_scope.

Implicit Types (s : App) (r x : FileRecord) (file : File) (c : Counts).

(** the elementary changes again, with all that the script has checked when
    it appends a record *)
Inductive change : App -> App -> Prop :=
| change_toast s t :
    onAction t = None -> change s (showToast t s)
| change_progress s p :
    p <= 100 -> change s (set_progress p s)
| change_download s d :
    change s (add_download d s)
| change_push s file bytes pdfDoc :
    (length (filesArr s) < MAX_FILE_COUNT CONFIG)%nat ->
    acceptable file bytes pdfDoc s ->
    List.find (is_duplicate_of file (hashFile bytes)) (records s) = None ->
    change s (push (new_record file bytes pdfDoc s) (uid s).2)
| change_release s (a : loc) :
    change s (set_heap (alter release a (heap s)) s)
| change_select s l :
    l ⊆+ filesArr s -> change s (set_filesArr l s)
| change_clear s :
    change s (showToast (cleared_toast (filesArr s)) (set_filesArr [] s))
| change_undo s k t previousFiles :
    toasts s !! k = Some t -> onAction t = Some previousFiles ->
    change s {| heap := heap s; filesArr := previousFiles;
                toasts := <[k := disarm t]> (toasts s);
                progress := progress s; downloads := downloads s; rng := rng s |}.

(** the objects an array of the store refers to *)
Definition objects (h : list FileRecord) (l : list loc) : list FileRecord :=
  (fun a => h !!! a) <$> l.

(** the list and every array a pending "Undo" would put back hold at most
    [MAX_FILE_COUNT] records *)
Definition CountInv (s : App) : Prop :=
  (length (filesArr s) <= MAX_FILE_COUNT CONFIG)%nat /\
  forall t previousFiles,
    t ∈ toasts s -> onAction t = Some previousFiles ->
    (length previousFiles <= MAX_FILE_COUNT CONFIG)%nat.

(** a record made from a file that went through every check of the intake *)
Definition intact (r : FileRecord) : Prop :=
  0 < rec_size r /\ rec_size r <= MAX_FILE_SIZE CONFIG /\
  rec_name r = file_name (rec_file r) /\
  rec_size r = file_size (rec_file r) /\
  exists bytes pdfDoc,
    file_arrayBuffer (rec_file r) = inr bytes /\
    startsWith (header_of bytes) "%PDF-" = true /\
    PDFDocument_load bytes = inr pdfDoc /\
    rec_pageCount r = N.of_nat (length pdfDoc) /\
    rec_hash r = hashFile bytes /\
    (rec_rawBytes r = Some bytes \/ rec_rawBytes r = None).

(** what the duplicate detection compares by name and size *)
Definition name_size (r : FileRecord) : string * N := (rec_name r, rec_size r).

(** no two records with the same name and size, no two with the same hash *)
Definition distinct (l : list FileRecord) : Prop :=
  NoDup (name_size <$> l) /\ NoDup (omap rec_hash l).

Definition DistinctInv (s : App) : Prop :=
  distinct (records s) /\
  forall t previousFiles,
    t ∈ toasts s -> onAction t = Some previousFiles ->
    distinct (objects (heap s) previousFiles).

(** the sum of the three counters *)
Definition counted (c : Counts) : nat := (addedCount c + skippedCount c + errorCount c)%nat.

(** the "Success!" toast of a merge *)
Definition success_toast (pages : N) (now : DateTime) : Toast :=
  mkToast "Success!"
    ("Merged " +:+ pretty pages +:+ " pages into " +:+ merged_filename now)
    TSuccess 4000.

End MoreStatements.

(** the characters [escapeHtml] replaces *)
Definition html_special (a : ascii) : bool :=
  (bool_decide (a = "&"%char) || bool_decide (a = "<"%char) ||
   bool_decide (a = ">"%char) || bool_decide (a = dquote) ||
   bool_decide (a = "'"%char))%bool.

(** the entity [escapeHtml] writes for a character *)
Definition html_entity (a : ascii) : string :=
  if bool_decide (a = "&"%char) then "&amp;"
  else if bool_decide (a = "<"%char) then "&lt;"
  else if bool_decide (a = ">"%char) then "&gt;"
  else if bool_decide (a = dquote) then "&quot;"
  else if bool_decide (a = "'"%char) then "&#39;"
  else String a EmptyString.

(** escaping character by character *)
Fixpoint escape_each (s : string) : string :=
  match s with
  | EmptyString => EmptyString
  | String a s' => html_entity a +:+ escape_each s'
  end.

(** the characters of a string *)
Fixpoint chars (s : string) : list ascii :=
  match s with
  | EmptyString => []
  | String a s' => a :: chars s'
  end.

(** the digits [hashFile] writes *)
Definition hex_digits : list ascii := chars "0123456789abcdef".
(** ** Sample files and states *)

Module Scenario.
Import Sample.
Local Open Scope list_scope.

(** a world whose identifiers differ for the first ten draws *)
Definition w : World := world counting.
(** a world whose [Math.random] always returns the same number *)
Definition w_stuck : World := world stuck.

Definition now : DateTime :=
  {| getFullYear := 2024; getMonth := 0; getDate := 5; getHours := 7;
     getMinutes := 30 |}.

Definition c0 : Counts := {| addedCount := 0; skippedCount := 0; errorCount := 0 |}.

Section Files.
Variable random : nat -> string.
#[local] Instance files_world : World := world random.

(** three single-page documents *)
Definition A : File := pdf_file "a.pdf" 1000 (pdf_bytes (Some Byte.x01) ["A1"]).
Definition B : File := pdf_file "b.pdf" 2000 (pdf_bytes (Some Byte.x02) ["B1"]).
Definition C : File := pdf_file "c.pdf" 3000 (pdf_bytes (Some Byte.x03) ["C1"]).

(** two documents whose hashing fails *)
Definition X : File := pdf_file "x.pdf" 10 (pdf_bytes None ["X1"; "X2"]).
Definition Y : File := pdf_file "y.pdf" 10 (pdf_bytes None ["Y1"]).

(** five documents of 90 MB *)
Definition F1 : File := pdf_file "f1.pdf" (90 * MB) (pdf_bytes (Some Byte.x11) ["F1"]).
Definition F2 : File := pdf_file "f2.pdf" (90 * MB) (pdf_bytes (Some Byte.x12) ["F2"]).
Definition F3 : File := pdf_file "f3.pdf" (90 * MB) (pdf_bytes (Some Byte.x13) ["F3"]).
Definition F4 : File := pdf_file "f4.pdf" (90 * MB) (pdf_bytes (Some Byte.x14) ["F4"]).
Definition F5 : File := pdf_file "f5.pdf" (90 * MB) (pdf_bytes (Some Byte.x15) ["F5"]).

(** a document over the per-file limit, one of 60 MB, one of 1 MB *)
Definition big : File := pdf_file "big.pdf" (101 * MB) (pdf_bytes (Some Byte.x21) ["G1"]).
Definition medium : File := pdf_file "medium.pdf" (60 * MB) (pdf_bytes (Some Byte.x22) ["M1"]).
Definition small : File := pdf_file "small.pdf" MB (pdf_bytes (Some Byte.x23) ["S1"]).

(** an empty file, and a file that is no PDF, both named as PDFs *)
Definition empty_pdf : File := pdf_file "empty.pdf" 0 (pdf_bytes None []).
Definition garbage_pdf : File :=
  pdf_file "garbage.pdf" 12
    {| sb_header := "hello"; sb_digest := Some Byte.x07;
       sb_doc := inl {| err_message := "No PDF header found";
                        err_string := "Error: No PDF header found" |} |}.

Definition notes_txt : File :=
  {| file_name := "notes.txt"; file_type := "text/plain"; file_size := 12;
     file_arrayBuffer :=
       inr {| sb_header := "hello"; sb_digest := Some Byte.x07;
              sb_doc := inl {| err_message := "No PDF header found";
                               err_string := "Error: No PDF header found" |} |} |}.

End Files.

(** the list [A; B; C] *)
Definition s_abc : @App w :=
  @handleFiles w [A counting; B counting; C counting] (@init w).

(** the list [A; B; C] after "Clear" and "Undo": the buffers are gone *)
Definition s_undone : @App w :=
  default s_abc (@toast_action_click w 1 (@clearBtn_click w s_abc)).

(** a list of 450 MB *)
Definition s450 : @App w :=
  @handleFiles w [F1 counting; F2 counting; F3 counting; F4 counting; F5 counting]
    (@init w).

(** [A] and [B] added while [Math.random] is stuck *)
Definition s_stuck : @App w_stuck :=
  @handleFiles w_stuck [A stuck; B stuck] (@init w_stuck).

End Scenario.

(** * Properties *)

Section Properties.
Context `{W : World}.
Local Open Scope list_scope.

Implicit Types (s : App) (r x : FileRecord) (file : File) (c : Counts).

(** ** The object store *)

Lemma deref_push_old r s a :
  (a < length (heap s))%nat -> deref (push r s) a = deref s a.
Proof. intros Ha. unfold deref, push; simpl. by apply lookup_total_app_l. Qed.

Lemma deref_push_new r s : deref (push r s) (length (heap s)) = r.
Proof.
  unfold deref, push; simpl.
  rewrite lookup_total_app_r by lia. by rewrite Nat.sub_diag.
Qed.

Lemma records_push r s : wf s -> records (push r s) = records s ++ [r].
Proof.
  intros Hwf. unfold records. cbn [filesArr push].
  rewrite fmap_app. cbn [fmap list_fmap]. rewrite deref_push_new. f_equal.
  apply Forall_fmap_ext_1. eapply Forall_impl; [exact Hwf|].
  intros a Ha. by apply deref_push_old.
Qed.

Lemma wf_push r s : wf s -> wf (push r s).
Proof.
  unfold wf, push; simpl. intros Hwf. rewrite length_app; simpl.
  apply Forall_app; split.
  - eapply Forall_impl; [exact Hwf|]. simpl. intros; lia.
  - repeat constructor. lia.
Qed.

Lemma foldl_size_shift (l : list FileRecord) (n : N) :
  foldl (fun sum f => sum + rec_size f) n l =
  n + foldl (fun sum f => sum + rec_size f) 0 l.
Proof.
  revert n. induction l as [|r l IH]; intros n; simpl; [lia|].
  rewrite IH, (IH (0 + rec_size r)). lia.
Qed.

Lemma getTotalSize_push r s :
  wf s -> getTotalSize (push r s) = getTotalSize s + rec_size r.
Proof.
  intros Hwf. unfold getTotalSize. rewrite records_push by done.
  by rewrite foldl_app.
Qed.

(** ** The steps of the intake loop *)

Lemma validateFile_ok file :
  validateFile file = [] <->
  0 < file_size file /\ file_size file <= MAX_FILE_SIZE CONFIG.
Proof.
  unfold validateFile.
  destruct (N.ltb_spec (MAX_FILE_SIZE CONFIG) (file_size file));
    destruct (N.eqb_spec (file_size file) 0); simpl in *; split; intros Hyp;
    try discriminate; try reflexivity; lia.
Qed.

Lemma intake_step_invalid file s c e es :
  validateFile file = e :: es ->
  intake_step file s c =
    (Continue,
     (showToast (mkToast "Invalid file" (file_name file +:+ ": " +:+ e) TError 3500) s,
      incr_error c)).
Proof. intros H. unfold intake_step. by rewrite H. Qed.

Lemma intake_step_cutoff file s c :
  validateFile file = [] ->
  MAX_TOTAL_SIZE CONFIG < getTotalSize s + file_size file ->
  intake_step file s c =
    (Break,
     (showToast (mkToast "Size limit exceeded"
                   ("Total size would exceed " +:+ formatBytes (MAX_TOTAL_SIZE CONFIG))
                   TError 2500) s, c)).
Proof.
  intros Hv Hsz. unfold intake_step. rewrite Hv.
  apply N.ltb_lt in Hsz. by rewrite Hsz.
Qed.

Lemma intake_step_duplicate file s c bytes existing :
  validateFile file = [] ->
  getTotalSize s + file_size file <= MAX_TOTAL_SIZE CONFIG ->
  file_arrayBuffer file = inr bytes ->
  List.find (is_duplicate_of file (hashFile bytes)) (records s) = Some existing ->
  intake_step file s c = (Continue, (s, incr_skipped c)).
Proof.
  intros Hv Hsz Hb Hf. unfold intake_step. rewrite Hv.
  apply N.ltb_ge in Hsz. by rewrite Hsz, Hb, Hf.
Qed.

Lemma intake_step_added file s c bytes pdfDoc :
  validateFile file = [] ->
  getTotalSize s + file_size file <= MAX_TOTAL_SIZE CONFIG ->
  file_arrayBuffer file = inr bytes ->
  List.find (is_duplicate_of file (hashFile bytes)) (records s) = None ->
  startsWith (header_of bytes) "%PDF-" = true ->
  PDFDocument_load bytes = inr pdfDoc ->
  intake_step file s c =
    (Continue, (push (new_record file bytes pdfDoc s) (uid s).2, incr_added c)).
Proof.
  intros Hv Hsz Hb Hf Hh Hl. unfold intake_step. rewrite Hv.
  apply N.ltb_ge in Hsz. by rewrite Hsz, Hb, Hf, Hh, Hl.
Qed.

Lemma intake_step_outcome file s c : step_outcome file s c (intake_step file s c).
Proof.
  unfold intake_step.
  destruct (validateFile file) as [|e es] eqn:Hv.
  2: { by apply outcome_error. }
  destruct (N.ltb_spec (MAX_TOTAL_SIZE CONFIG) (getTotalSize s + file_size file)) as [Hsz|Hsz].
  { by apply outcome_cutoff. }
  destruct (file_arrayBuffer file) as [err|bytes] eqn:Hb.
  { unfold intake_catch. by apply outcome_error. }
  destruct (List.find _ (records s)) as [existing|] eqn:Hf.
  { by eapply outcome_skipped. }
  destruct (startsWith (header_of bytes) "%PDF-") eqn:Hh; simpl.
  2: { by apply outcome_error. }
  destruct (PDFDocument_load bytes) as [err|pdfDoc] eqn:Hl.
  { unfold intake_catch. by apply outcome_error. }
  by eapply outcome_added.
Qed.

(** ** The filter of a batch *)

Lemma is_pdf_candidate_spec (f : File) : is_pdf_candidate f = spec_is_pdf f.
Proof.
  unfold is_pdf_candidate, spec_is_pdf.
  destruct (endsWith _ _); simpl; [done|].
  by destruct (bool_decide (file_type f = "application/pdf")),
             (bool_decide (file_type f = "")).
Qed.

Lemma filter_is_pdf_candidate (files : list File) :
  List.filter is_pdf_candidate files = List.filter spec_is_pdf files.
Proof.
  induction files as [|f files IH]; simpl; [done|].
  by rewrite is_pdf_candidate_spec, IH.
Qed.


(** ** Duplicate detection *)

Lemma hex2_not_empty (b : Byte.byte) : exists a t, hex2 b = String a t.
Proof. unfold hex2. eauto. Qed.

Lemma hashFile_not_empty (bytes : Bytes) (h : string) :
  hashFile bytes = Some h -> h <> "".
Proof.
  unfold hashFile. destruct (subtle_digest bytes) as [d|] eqn:Hd; [|discriminate].
  intros [= <-]. apply subtle_digest_length in Hd.
  destruct d as [|b d]; [done|]. simpl.
  destruct (hex2_not_empty b) as (a & t & ->).
  destruct (list_fmap _ _ hex2 d); simpl; discriminate.
Qed.

Lemma is_duplicate_of_spec file (hash : option string) x :
  is_duplicate_of file hash x = true <->
  (exists h, hash = Some h /\ h <> "" /\ rec_hash x = Some h) \/ same_name_size file x.
Proof.
  unfold is_duplicate_of, same_name_size.
  rewrite orb_true_iff, andb_true_iff, bool_decide_eq_true, N.eqb_eq.
  destruct hash as [h|].
  - rewrite andb_true_iff, negb_true_iff, bool_decide_eq_false, bool_decide_eq_true.
    split; (intros [H|H]; [left|right; done]).
    + exists h. tauto.
    + destruct H as (h' & [= <-] & ? & ?). done.
  - split; (intros [H|H]; [|right; done]); [discriminate|].
    destruct H as (h' & [=] & _).
Qed.

Lemma is_duplicate_of_absent_hash file x :
  is_duplicate_of file None x =
  (bool_decide (rec_name x = file_name file) && (rec_size x =? file_size file))%bool.
Proof. reflexivity. Qed.

Lemma find_duplicate_None file hash (l : list FileRecord) :
  List.find (is_duplicate_of file hash) l = None <->
  Forall (fun x => is_duplicate_of file hash x = false) l.
Proof.
  induction l as [|x l IH]; simpl.
  - split; [constructor|done].
  - destruct (is_duplicate_of file hash x) eqn:Hx.
    + split; [discriminate|]. intros H. apply Forall_cons in H as [H _]. congruence.
    + rewrite IH. split; [by constructor|]. by intros [_ ?]%Forall_cons.
Qed.

Lemma find_duplicate_Some file hash (l : list FileRecord) x :
  x ∈ l -> is_duplicate_of file hash x = true ->
  exists existing, List.find (is_duplicate_of file hash) l = Some existing.
Proof.
  intros Hin Hx. destruct (List.find _ l) as [e|] eqn:Hf; [eauto|].
  apply find_duplicate_None in Hf. rewrite Forall_forall in Hf.
  specialize (Hf x Hin). congruence.
Qed.

(** a duplicate, by hash or by name and size, is found by [filesArr.find] *)
Lemma duplicate_is_found file bytes s x :
  file_arrayBuffer file = inr bytes ->
  x ∈ records s ->
  same_hash file x \/ same_name_size file x ->
  exists existing,
    List.find (is_duplicate_of file (hashFile bytes)) (records s) = Some existing.
Proof.
  intros Hb Hin Hdup. apply (find_duplicate_Some _ _ _ x Hin).
  apply is_duplicate_of_spec. destruct Hdup as [(b & h & Hb' & Hh & Hx)|Hns].
  - left. rewrite Hb in Hb'. injection Hb' as <-.
    exists h. eauto using hashFile_not_empty.
  - by right.
Qed.

Lemma wf_uid s : wf s -> wf (uid s).2.
Proof. done. Qed.

Lemma find_unique_None file bytes s :
  file_arrayBuffer file = inr bytes ->
  (forall x, x ∈ records s -> ~ same_hash file x /\ ~ same_name_size file x) ->
  List.find (is_duplicate_of file (hashFile bytes)) (records s) = None.
Proof.
  intros Hb Hno. apply find_duplicate_None, Forall_forall. intros x Hx.
  destruct (Hno x Hx) as [Hh Hns].
  destruct (is_duplicate_of file (hashFile bytes) x) eqn:Hd; [exfalso|done].
  apply is_duplicate_of_spec in Hd as [(h & Hh' & _ & Hx')|?]; [|done].
  apply Hh. by exists bytes, h.
Qed.

(** the iteration of a candidate that has a duplicate in the list leaves
    the list as it is, whatever check stops the candidate *)
Lemma duplicate_never_appended file s c x :
  x ∈ records s ->
  same_hash file x \/ same_name_size file x ->
  heap (intake_step file s c).2.1 = heap s /\
  filesArr (intake_step file s c).2.1 = filesArr s.
Proof.
  intros Hin Hdup.
  destruct (intake_step_outcome file s c) as [t|t|bytes e|bytes pdfDoc ? ? Hb Hf]; try done.
  destruct (duplicate_is_found file bytes s x Hb Hin Hdup) as [e He]. congruence.
Qed.

(** C4, for a candidate that reaches the duplicate detection.  A candidate
    whose content hash is the hash of a record of the list, or whose name
    and size are those of a record, never adds a record; when it has passed
    the validation and the total-size check and its bytes were read, its
    iteration changes nothing but the counter of skipped files: no toast,
    no error.  A candidate that passes every check and matches no record
    adds exactly one record, at the end of the list. *)
Theorem intake_skips_duplicates (file : File) (s : App) (c : Counts) :
  wf s ->
  ((exists x, x ∈ records s /\ (same_hash file x \/ same_name_size file x)) ->
     (heap (intake_step file s c).2.1 = heap s /\
      filesArr (intake_step file s c).2.1 = filesArr s /\
      records (intake_step file s c).2.1 = records s) /\
     (reaches_duplicate_check file s ->
        intake_step file s c = (Continue, (s, incr_skipped c)))) /\
  ((forall x, x ∈ records s -> ~ same_hash file x /\ ~ same_name_size file x) ->
   forall bytes pdfDoc,
     acceptable file bytes pdfDoc s ->
     intake_step file s c =
       (Continue, (push (new_record file bytes pdfDoc s) (uid s).2, incr_added c)) /\
     records (push (new_record file bytes pdfDoc s) (uid s).2) =
       records s ++ [new_record file bytes pdfDoc s]).
Proof.
  intros Hwf. split.
  - intros (x & Hin & Hdup). split.
    + destruct (duplicate_never_appended file s c x Hin Hdup) as [Hh Hf].
      repeat split; try done. unfold records, deref. by rewrite Hh, Hf.
    + intros (Hv & Hsz & bytes & Hb).
      destruct (duplicate_is_found file bytes s x Hb Hin Hdup) as [e He].
      by eapply intake_step_duplicate.
  - intros Hno bytes pdfDoc (Hv & Hsz & Hb & Hh & Hl). split.
    + apply intake_step_added; try done. by apply find_unique_None.
    + exact (records_push _ _ (wf_uid s Hwf)).
Qed.

(** C10: with an absent hash the duplicate test is the comparison of name
    and size alone, whatever the hash of the record, absent or not.  So for
    two candidates whose hashing fails and that pass every other check,
    neither matching a record of the list by name and size: both are added
    when they differ in name or size, and the second is skipped when they
    agree in both. *)
Theorem absent_hash_compares_name_and_size
    (f1 f2 : File) (b1 b2 : Bytes) (d1 d2 : list Page) (s : App) (c : Counts) :
  let r1 := new_record f1 b1 d1 s in
  let s1 := push r1 (uid s).2 in
  let r2 := new_record f2 b2 d2 s1 in
  let s2 := push r2 (uid s1).2 in
  wf s ->
  hashFile b1 = None -> hashFile b2 = None ->
  acceptable f1 b1 d1 s -> acceptable f2 b2 d2 s1 ->
  (forall x, x ∈ records s -> ~ same_name_size f1 x /\ ~ same_name_size f2 x) ->
  (forall file x, is_duplicate_of file None x = true <-> same_name_size file x) /\
  (~ (file_name f1 = file_name f2 /\ file_size f1 = file_size f2) ->
     intake_loop [f1; f2] s c = (s2, incr_added (incr_added c)) /\
     records s2 = records s ++ [r1; r2]) /\
  ((file_name f1 = file_name f2 /\ file_size f1 = file_size f2) ->
     intake_loop [f1; f2] s c = (s1, incr_skipped (incr_added c)) /\
     records s1 = records s ++ [r1]).
Proof.
  intros r1 s1 r2 s2 Hwf Hh1 Hh2 Ha1 Ha2 Hno.
  assert (forall file x, is_duplicate_of file None x = true <-> same_name_size file x)
    as Hspec.
  { intros file x. rewrite is_duplicate_of_spec. split; [|by right].
    intros [(h & [=] & _)|?]; done. }
  assert (records s1 = records s ++ [r1]) as Hr1
    by exact (records_push r1 _ (wf_uid s Hwf)).
  assert (wf s1) as Hwf1 by exact (wf_push r1 _ (wf_uid s Hwf)).
  assert (records s2 = records s1 ++ [r2]) as Hr2
    by exact (records_push r2 _ (wf_uid s1 Hwf1)).
  assert (intake_step f1 s c = (Continue, (s1, incr_added c))) as Hstep1.
  { destruct Ha1 as (Hv & Hsz & Hb & Hh & Hl).
    apply intake_step_added; try done. rewrite Hh1.
    apply find_duplicate_None, Forall_forall. intros x Hx.
    destruct (is_duplicate_of f1 None x) eqn:Hd; [|done].
    apply Hspec in Hd. by destruct (Hno x Hx). }
  split; [exact Hspec|]. split.
  - intros Hdiff. split; [|by rewrite Hr2, Hr1, <- app_assoc].
    cbn [intake_loop]. rewrite Hstep1.
    destruct Ha2 as (Hv & Hsz & Hb & Hh & Hl).
    rewrite (intake_step_added f2 s1 _ b2 d2); try done.
    rewrite Hh2, Hr1. apply find_duplicate_None, Forall_app. split.
    + apply Forall_forall. intros x Hx.
      destruct (is_duplicate_of f2 None x) eqn:Hd; [|done].
      apply Hspec in Hd. by destruct (Hno x Hx).
    + repeat constructor.
      destruct (is_duplicate_of f2 None r1) eqn:Hd; [|done].
      apply Hspec in Hd. destruct Hd as [Hn Hs]. by destruct Hdiff.
  - intros [Hn Hs]. split; [|done].
    cbn [intake_loop]. rewrite Hstep1.
    destruct Ha2 as (Hv & Hsz & Hb & Hh & Hl).
    assert (is_duplicate_of f2 None r1 = true) as Hd by by apply Hspec.
    destruct (find_duplicate_Some f2 None (records s1) r1) as [e He]; try done.
    { rewrite Hr1. apply elem_of_app. right. by apply list_elem_of_singleton. }
    rewrite (intake_step_duplicate f2 s1 _ b2 e); try done. by rewrite Hh2.
Qed.

(** ** The merge loop *)

Lemma merge_loop_spec (totalPages : N) (items : list FileRecord) (m : MergeLoop) s :
  forall m' s', foldl (merge_step totalPages) (m, s) items = (m', s') ->
  outPdf m' = outPdf m ++ mjoin (pages_of <$> items) /\
  added m' = added m + merge_credit items /\
  heap s' = heap s /\ filesArr s' = filesArr s /\
  downloads s' = downloads s /\ rng s' = rng s.
Proof.
  revert m s. induction items as [|item items IH]; intros m s m' s' Hloop.
  - simpl in Hloop. injection Hloop as <- <-. simpl.
    rewrite app_nil_r, N.add_0_r. done.
  - simpl in Hloop. unfold merge_credit, pages_of, credit_of in *. simpl.
    destruct (load_item item) as [err|srcPages] eqn:Hload;
      apply IH in Hloop as (Ho & Ha & Hh & Hf & Hd & Hr); simpl in *;
      rewrite Ho, Ha, Hh, Hf, Hd, Hr; repeat split; try done.
    + by rewrite app_assoc.
    + lia.
Qed.

Lemma merge_loop_all_fail (totalPages : N) (items : list FileRecord) (m : MergeLoop) s :
  Forall (fun item => exists err, load_item item = inl err) items ->
  foldl (merge_step totalPages) (m, s) items =
    (m, foldl (fun s t => showToast t s) s (partial_failure_toast <$> items)).
Proof.
  intros Hall. revert s. induction Hall as [|item items [err Herr] _ IH]; intros s.
  - done.
  - simpl. rewrite Herr. apply IH.
Qed.

Lemma toasts_foldl_showToast (ts : list Toast) s :
  toasts (foldl (fun s t => showToast t s) s ts) = toasts s ++ ts /\
  heap (foldl (fun s t => showToast t s) s ts) = heap s /\
  filesArr (foldl (fun s t => showToast t s) s ts) = filesArr s /\
  downloads (foldl (fun s t => showToast t s) s ts) = downloads s /\
  progress (foldl (fun s t => showToast t s) s ts) = progress s.
Proof.
  revert s. induction ts as [|t ts IH]; intros s; simpl.
  - by rewrite app_nil_r.
  - destruct (IH (showToast t s)) as (-> & -> & -> & -> & ->). simpl.
    by rewrite <- app_assoc.
Qed.

Lemma foldl_pageCount_shift (l : list FileRecord) (n : N) :
  foldl (fun t f => t + rec_pageCount f) n l =
  n + foldr (fun f acc => rec_pageCount f + acc) 0 l.
Proof.
  revert n. induction l as [|r l IH]; intros n; simpl; [lia|].
  rewrite IH. lia.
Qed.

Lemma foldr_add_Permutation {A} (g : A -> N) (l1 l2 : list A) :
  l1 ≡ₚ l2 ->
  foldr (fun f acc => g f + acc) 0 l1 = foldr (fun f acc => g f + acc) 0 l2.
Proof. induction 1; simpl; lia. Qed.

Lemma totalPagesOf_Permutation (l1 l2 : list FileRecord) :
  l1 ≡ₚ l2 -> totalPagesOf l1 = totalPagesOf l2.
Proof.
  intros Hp. unfold totalPagesOf. rewrite !foldl_pageCount_shift.
  f_equal. by apply foldr_add_Permutation.
Qed.

Lemma splice_insert_Permutation {A} (to : nat) (moved : A) (l : list A) :
  splice_insert to moved l ≡ₚ moved :: l.
Proof.
  unfold splice_insert. rewrite <- Permutation_middle. by rewrite take_drop.
Qed.

Lemma move_Permutation {A} (from to : nat) (moved : A) (l : list A) :
  l !! from = Some moved -> splice_insert to moved (delete from l) ≡ₚ l.
Proof.
  intros H. rewrite splice_insert_Permutation. symmetry. by apply delete_Permutation.
Qed.

(** [onEnd] moves the record at [from] to position [to] *)
Lemma onEnd_records (from to : nat) s s1 :
  onEnd from to s = Some s1 ->
  exists moved,
    records s !! from = Some moved /\
    records s1 = splice_insert to moved (delete from (records s)) /\
    heap s1 = heap s /\ downloads s1 = downloads s.
Proof.
  unfold onEnd. destruct (filesArr s !! from) as [a|] eqn:Ha; [|discriminate].
  intros [= <-]. exists (deref s a). unfold records at 1.
  rewrite list_lookup_fmap, Ha. split; [done|]. split; [|done].
  unfold records, splice_insert; simpl.
  rewrite fmap_app, fmap_cons, fmap_take, fmap_drop, list_fmap_delete. done.
Qed.

Lemma records_nil s : filesArr s = [] <-> records s = [].
Proof.
  unfold records. split; [by intros ->|]. apply fmap_nil_inv.
Qed.

(** a merge that is not called off and credits at least one page ends in a
    download of the output document *)
Lemma mergeBtn_click_success s (proceed : bool) (now : DateTime) :
  filesArr s <> [] ->
  merge_declined proceed s = false ->
  merge_credit (records s) <> 0 ->
  downloads (mergeBtn_click proceed now s) =
    downloads s ++ [{| dl_filename := merged_filename now;
                       dl_pages := mjoin (pages_of <$> records s) |}].
Proof.
  intros Hne Hgo Hcredit. unfold mergeBtn_click.
  rewrite bool_decide_eq_false_2 by done.
  unfold merge_declined in Hgo. rewrite Hgo. unfold merge_loop.
  change (records (set_progress 0 s)) with (records s).
  destruct (foldl _ _ (records s)) as [m s1] eqn:Hloop.
  apply merge_loop_spec in Hloop as (Ho & Ha & _ & _ & Hd & _). simpl in *.
  rewrite (proj2 (N.eqb_neq _ _)) by (rewrite Ha; lia).
  simpl. by rewrite Hd, Ho.
Qed.


(** ** Releasing the buffers *)

Lemma alter_release_lookup (h : list FileRecord) (x a : loc) :
  alter release x h !!! a = if decide (x = a) then release (h !!! a) else h !!! a.
Proof.
  rewrite list_lookup_total_alter.
  destruct (decide (x = a)) as [->|Hne].
  - destruct (decide (a < length h)%nat) as [Hlt|Hge].
    + by rewrite decide_True.
    + rewrite decide_False by tauto.
      rewrite !(list_lookup_total_alt h a), (lookup_ge_None_2 h a) by lia.
      done.
  - by rewrite decide_False by tauto.
Qed.

Lemma cleanup_lookup (l : list loc) (h : list FileRecord) (a : loc) :
  foldl (fun (h : list FileRecord) (x : loc) => alter release x h) h l !!! a =
  if decide (a ∈ l) then release (h !!! a) else h !!! a.
Proof.
  revert h. induction l as [|x l IH]; intros h; cbn [foldl].
  - case_decide as Hin; [|done]. by apply elem_of_nil in Hin.
  - rewrite IH, alter_release_lookup.
    repeat case_decide; subst; try done.
    + exfalso. match goal with H : _ ∉ _ :: _ |- _ => apply H end.
      apply list_elem_of_here.
    + exfalso. match goal with H : _ ∉ _ :: _ |- _ => apply H end.
      by apply list_elem_of_further.
    + exfalso. match goal with H : _ ∉ _ :: _ |- _ => apply H end.
      apply list_elem_of_here.
    + match goal with H : _ ∈ _ :: _ |- _ => apply elem_of_cons in H as [?|?] end;
        done.
Qed.

Lemma records_cleanupMemory s :
  records (cleanupMemory s) = release <$> records s.
Proof.
  unfold records, cleanupMemory, deref; simpl.
  rewrite <- list_fmap_compose. apply Forall_fmap_ext_1, Forall_forall.
  intros a Ha. simpl. rewrite cleanup_lookup. by rewrite decide_True.
Qed.

(** C9: clearing a list that is not empty empties it and shows the
    "Cleared" toast with its "Undo" action; the action shows "Restored" and
    puts back the very array that was cleared: the same objects in the same
    order, with the same file, name, size, page count, id and hash.  Only
    the byte buffers are gone: the clear released them and nothing reads
    them again. *)
Theorem clear_then_undo_restores_list (s : App) :
  filesArr s <> [] ->
  let s1 := clearBtn_click s in
  filesArr s1 = [] /\
  toasts s1 = toasts s ++ [cleared_toast (filesArr s)] /\
  exists s2,
    toast_action_click (length (toasts s)) s1 = Some s2 /\
    toasts s2 = toasts s ++ [disarm (cleared_toast (filesArr s)); restored_toast] /\
    filesArr s2 = filesArr s /\
    records s2 = release <$> records s /\
    rec_id <$> records s2 = rec_id <$> records s /\
    rec_name <$> records s2 = rec_name <$> records s /\
    rec_size <$> records s2 = rec_size <$> records s /\
    rec_pageCount <$> records s2 = rec_pageCount <$> records s /\
    rec_hash <$> records s2 = rec_hash <$> records s /\
    rec_file <$> records s2 = rec_file <$> records s /\
    Forall (fun r => rec_rawBytes r = None) (records s2).
Proof.
  intros Hne s1. subst s1. unfold clearBtn_click.
  rewrite bool_decide_eq_false_2 by done.
  split; [done|]. split; [done|].
  unfold toast_action_click. cbn [toasts showToast set_filesArr].
  change (toasts (cleanupMemory s)) with (toasts s).
  rewrite list_lookup_middle by done. cbn [onAction].
  eexists. split; [reflexivity|].
  split.
  { cbn [toasts showToast].
    rewrite (insert_app_r_alt (toasts s) _ (length (toasts s))) by done.
    rewrite Nat.sub_diag. by rewrite <- app_assoc. }
  match goal with |- context [records ?st] =>
    assert (records st = release <$> records s) as Hrec
  end.
  { rewrite <- records_cleanupMemory. reflexivity. }
  rewrite Hrec, <- !list_fmap_compose.
  repeat split; try done.
  apply Forall_fmap, Forall_forall. done.
Qed.

(** ** The handlers as sequences of elementary changes *)

Lemma intake_step_prims file s c : rtc prim s (intake_step file s c).2.1.
Proof.
  destruct (intake_step_outcome file s c); simpl.
  - apply rtc_once. by constructor.
  - apply rtc_once. by constructor.
  - done.
  - apply rtc_once. by constructor.
Qed.

Lemma intake_loop_prims (pdfs : list File) s c : rtc prim s (intake_loop pdfs s c).1.
Proof.
  revert s c. induction pdfs as [|file rest IH]; intros s c; simpl; [done|].
  pose proof (intake_step_prims file s c) as Hstep.
  destruct (intake_step file s c) as [[] [s' c']]; simpl in *; [|done].
  etrans; [exact Hstep|apply IH].
Qed.

Lemma intake_feedback_prims c s : rtc prim s (intake_feedback c s).
Proof.
  unfold intake_feedback.
  destruct (0 <? addedCount c)%nat; [apply rtc_once; by constructor|].
  destruct (0 <? skippedCount c)%nat; [apply rtc_once; by constructor|done].
Qed.

Lemma handleFiles_prims (files : list File) s : rtc prim s (handleFiles files s).
Proof.
  unfold handleFiles.
  case_bool_decide; [done|].
  case_bool_decide; [apply rtc_once; by constructor|].
  destruct (_ <? _)%nat; [apply rtc_once; by constructor|].
  pose proof (intake_loop_prims (List.filter is_pdf_candidate files) s
                {| addedCount := 0; skippedCount := 0; errorCount := 0 |}) as Hloop.
  destruct (intake_loop _ s _) as [s' c]. simpl in Hloop.
  etrans; [exact Hloop|apply intake_feedback_prims].
Qed.

Lemma List_filter_sublist {A} (f : A -> bool) (l : list A) :
  List.filter f l `sublist_of` l.
Proof.
  induction l as [|x l IH]; simpl; [constructor|].
  destruct (f x); by constructor.
Qed.

Lemma remove_click_prims (target : loc) s : rtc prim s (remove_click target s).
Proof.
  unfold remove_click.
  destruct (List.find _ (filesArr s)) as [a|].
  - eapply rtc_l; [apply (prim_release s a)|].
    eapply rtc_l; [apply prim_select|apply rtc_once; by constructor].
    apply sublist_submseteq, List_filter_sublist.
  - eapply rtc_l; [apply prim_select|apply rtc_once; by constructor].
    apply sublist_submseteq, List_filter_sublist.
Qed.

Lemma onEnd_prims (from to : nat) s s' : onEnd from to s = Some s' -> rtc prim s s'.
Proof.
  unfold onEnd. destruct (filesArr s !! from) as [moved|] eqn:Hm; [|discriminate].
  intros [= <-]. apply rtc_once, prim_select.
  apply Permutation_submseteq. by apply move_Permutation.
Qed.

Lemma releases_prims (l : list loc) s :
  rtc prim s (set_heap (foldl (fun (h : list FileRecord) (a : loc) => alter release a h)
                          (heap s) l) s).
Proof.
  revert s. induction l as [|a l IH]; intros s; cbn [foldl].
  - destruct s; done.
  - eapply rtc_l; [apply (prim_release s a)|].
    exact (IH (set_heap (alter release a (heap s)) s)).
Qed.

Lemma cleanupMemory_prims s : rtc prim s (cleanupMemory s).
Proof. apply releases_prims. Qed.

Lemma clearBtn_click_prims s : rtc prim s (clearBtn_click s).
Proof.
  unfold clearBtn_click. case_bool_decide; [done|].
  etrans; [apply cleanupMemory_prims|].
  apply rtc_once, (prim_clear (cleanupMemory s)).
Qed.

Lemma toast_action_click_prims (k : nat) s s' :
  toast_action_click k s = Some s' -> rtc prim s s'.
Proof.
  unfold toast_action_click.
  destruct (toasts s !! k) as [t|] eqn:Hk; [|discriminate].
  destruct (onAction t) as [previousFiles|] eqn:Ht; [|discriminate].
  intros [= <-].
  eapply rtc_l; [by eapply prim_undo|]. apply rtc_once. by constructor.
Qed.

(** ** The progress of a merge *)

Lemma percent_le_100 (added totalPages : N) :
  added <= N.max 1 totalPages -> percent added totalPages <= 100.
Proof.
  intros Hle. unfold percent. set (m := N.max 1 totalPages) in *.
  assert (1 <= m) by (unfold m; lia).
  apply N.lt_succ_r. change (N.succ 100) with 101.
  apply N.Div0.div_lt_upper_bound; lia.
Qed.

Lemma credit_of_probed (item : FileRecord) :
  probed item ->
  credit_of item = N.of_nat (length (pages_of item)) /\
  credit_of item <= rec_pageCount item.
Proof.
  unfold probed, credit_of, pages_of, load_item.
  destruct (rec_rawBytes item) as [bytes|]; [|intros _; simpl; lia].
  intros (pdfDoc & -> & ->).
  destruct (N.eqb_spec (N.of_nat (length pdfDoc)) 0); lia.
Qed.

Lemma probed_records s : wf s -> Forall probed (heap s) -> Forall probed (records s).
Proof.
  intros Hwf Hp. unfold records. apply Forall_fmap, Forall_forall.
  intros a Ha. simpl. rewrite Forall_forall in Hp. apply Hp.
  unfold wf in Hwf. rewrite Forall_forall in Hwf. specialize (Hwf a Ha).
  unfold deref. apply list_elem_of_lookup. exists a.
  by apply list_lookup_lookup_total_lt.
Qed.

Lemma merge_loop_prims (totalPages : N) (items : list FileRecord) (m : MergeLoop) s :
  Forall probed items ->
  added m + foldr (fun f acc => rec_pageCount f + acc) 0 items <= totalPages ->
  rtc prim s (foldl (merge_step totalPages) (m, s) items).2.
Proof.
  intros Hp. revert m s. induction Hp as [|item items Hitem _ IH]; intros m s Hle.
  - done.
  - simpl in *. destruct (credit_of_probed item Hitem) as [_ Hc].
    unfold credit_of in Hc.
    destruct (load_item item) as [err|srcPages].
    + eapply rtc_l; [by apply (prim_toast s (partial_failure_toast item))|].
      apply IH. lia.
    + eapply rtc_l; [|apply IH; simpl; lia].
      apply prim_progress, percent_le_100. lia.
Qed.

Lemma mergeBtn_click_prims (proceed : bool) (now : DateTime) s :
  wf s -> Forall probed (heap s) -> rtc prim s (mergeBtn_click proceed now s).
Proof.
  intros Hwf Hp. unfold mergeBtn_click.
  case_bool_decide; [done|].
  destruct (_ && _)%bool; [done|].
  eapply rtc_l; [apply (prim_progress s 0); lia|].
  unfold merge_loop. change (records (set_progress 0 s)) with (records s).
  pose proof (merge_loop_prims (totalPagesOf (records s)) (records s)
                {| outPdf := []; added := 0 |} (set_progress 0 s)
                (probed_records s Hwf Hp)) as Hloop.
  destruct (foldl _ _ (records s)) as [m s1]. simpl in Hloop.
  etrans.
  { apply Hloop. unfold totalPagesOf. rewrite foldl_pageCount_shift. lia. }
  destruct (added m =? 0).
  - apply rtc_once. by constructor.
  - eapply rtc_l; [apply prim_download|].
    eapply rtc_l; [apply (prim_progress _ 100); lia|].
    eapply rtc_l; [|apply cleanupMemory_prims].
    by apply prim_toast.
Qed.

Lemma handle_prims (e : Event) s s' :
  wf s -> Forall probed (heap s) -> handle e s = Some s' -> rtc prim s s'.
Proof.
  intros Hwf Hp. destruct e as [files|target|from to|proceed now| |k]; simpl.
  - intros [= <-]. apply handleFiles_prims.
  - case_bool_decide; [|discriminate]. intros [= <-]. apply remove_click_prims.
  - apply onEnd_prims.
  - intros [= <-]. by apply mergeBtn_click_prims.
  - intros [= <-]. apply clearBtn_click_prims.
  - apply toast_action_click_prims.
Qed.

(** ** The invariant of the store *)

Lemma foldr_add_app {A} (g : A -> N) (l1 l2 : list A) :
  foldr (fun a acc => g a + acc) 0 (l1 ++ l2) =
  foldr (fun a acc => g a + acc) 0 l1 + foldr (fun a acc => g a + acc) 0 l2.
Proof. induction l1 as [|a l1 IH]; simpl; lia. Qed.

Lemma getTotalSize_total_size_at s :
  getTotalSize s = total_size_at (heap s) (filesArr s).
Proof.
  unfold getTotalSize, total_size_at, records, deref.
  generalize (filesArr s). intros l.
  induction l as [|a l IH]; [done|].
  rewrite fmap_cons. cbn [foldl foldr].
  rewrite foldl_size_shift, IH. lia.
Qed.

Lemma total_size_at_ext (h h' : list FileRecord) (l : list loc) :
  (forall a, a ∈ l -> rec_size (h' !!! a) = rec_size (h !!! a)) ->
  total_size_at h' l = total_size_at h l.
Proof.
  unfold total_size_at. induction l as [|a l IH]; intros Hext; simpl; [done|].
  rewrite Hext by apply list_elem_of_here. rewrite IH; [done|].
  intros b Hb. apply Hext. by apply list_elem_of_further.
Qed.

(** a store [h'] that keeps the objects of [h], up to their buffers *)
Lemma good_mono (h h' : list FileRecord) (l : list loc) :
  (length h <= length h')%nat ->
  (forall a, (a < length h)%nat -> rec_size (h' !!! a) = rec_size (h !!! a)) ->
  good h l -> good h' l.
Proof.
  intros Hlen Hext (Hwf & Hnd & Htot). repeat split; [|done|].
  - eapply Forall_impl; [exact Hwf|]. simpl. intros; lia.
  - rewrite (total_size_at_ext h h'); [done|].
    intros a Ha. apply Hext. rewrite Forall_forall in Hwf. by apply Hwf.
Qed.

Lemma good_submseteq (h : list FileRecord) (l l' : list loc) :
  l' ⊆+ l -> good h l -> good h l'.
Proof.
  intros Hsub (Hwf & Hnd & Htot).
  destruct (submseteq_Permutation _ _ Hsub) as [k Hk].
  repeat split.
  - apply Forall_forall. intros a Ha. rewrite Forall_forall in Hwf.
    apply Hwf. by eapply elem_of_submseteq.
  - rewrite Hk in Hnd. by apply NoDup_app in Hnd as [? _].
  - unfold total_size_at in *.
    rewrite (foldr_add_Permutation _ _ _ Hk), foldr_add_app in Htot. lia.
Qed.

Lemma good_nil (h : list FileRecord) : good h [].
Proof. repeat split; [constructor|constructor|]. unfold total_size_at. simpl. lia. Qed.

Lemma size_alter_release (h : list FileRecord) (x a : loc) :
  rec_size (alter release x h !!! a) = rec_size (h !!! a).
Proof. rewrite alter_release_lookup. by case_decide. Qed.

Lemma probed_release r : probed (release r).
Proof. done. Qed.

Lemma Forall_probed_alter (h : list FileRecord) (x : loc) :
  Forall probed h -> Forall probed (alter release x h).
Proof.
  intros Hp. apply Forall_forall. intros r Hr.
  apply list_elem_of_lookup in Hr as [a Ha].
  rewrite list_lookup_alter in Ha. case_decide; subst.
  - destruct (h !! a); [|done]. injection Ha as <-. apply probed_release.
  - rewrite Forall_forall in Hp. apply Hp. apply list_elem_of_lookup. eauto.
Qed.

Lemma prim_Inv s s' : prim s s' -> Inv s -> Inv s'.
Proof.
  intros Hprim [Hlist Hprobed Hundo Hprog].
  destruct Hprim as [s t Ht|s p Hp|s d|s file bytes pdfDoc Hsz Hload|s a|s l Hl|s
                    |s k t previousFiles Hk Ht].
  - split; try done. simpl. intros t' prev [Hin| ->%list_elem_of_singleton]%elem_of_app Hact.
    + by eapply Hundo.
    + congruence.
  - split; try done. simpl. apply Forall_app. split; [done|]. by repeat constructor.
  - split; done.
  - assert (forall a, (a < length (heap s))%nat ->
              rec_size ((heap s ++ [new_record file bytes pdfDoc s]) !!! a) =
              rec_size (heap s !!! a)) as Hext.
    { intros a Ha. by rewrite lookup_total_app_l. }
    destruct Hlist as (Hwf & Hnd & Htot).
    split; simpl.
    + repeat split.
      * apply (wf_push _ (uid s).2 Hwf).
      * apply NoDup_app. repeat split; [done| |apply NoDup_singleton].
        intros a Ha ->%list_elem_of_singleton.
        rewrite Forall_forall in Hwf. specialize (Hwf _ Ha). simpl in Hwf. lia.
      * change (total_size_at (heap (push (new_record file bytes pdfDoc s) (uid s).2))
                  (filesArr (push (new_record file bytes pdfDoc s) (uid s).2))
                <= MAX_TOTAL_SIZE CONFIG).
        rewrite <- getTotalSize_total_size_at.
        rewrite (getTotalSize_push _ (uid s).2 Hwf). exact Hsz.
    + apply Forall_app. split; [done|]. repeat constructor.
      unfold probed. simpl. eauto.
    + intros t prev Hin Hact. apply (good_mono (heap s)).
      * rewrite length_app. lia.
      * done.
      * by eapply Hundo.
    + done.
  - split; simpl.
    + apply (good_mono (heap s)); [by rewrite length_alter| |done].
      intros. apply size_alter_release.
    + by apply Forall_probed_alter.
    + intros t prev Hin Hact. apply (good_mono (heap s)); [by rewrite length_alter| |].
      * intros. apply size_alter_release.
      * by eapply Hundo.
    + done.
  - split; simpl; try done. by eapply good_submseteq.
  - split; simpl; try done.
    + apply good_nil.
    + intros t prev [Hin| ->%list_elem_of_singleton]%elem_of_app Hact.
      * by eapply Hundo.
      * simpl in Hact. by injection Hact as <-.
  - split; simpl; try done.
    + eapply Hundo; [|exact Ht]. apply list_elem_of_lookup. eauto.
    + intros t' prev Hin Hact. apply list_elem_of_lookup in Hin as [j Hj].
      destruct (decide (k = j)) as [->|Hne].
      * rewrite list_lookup_insert_eq in Hj by (by eapply lookup_lt_Some).
        injection Hj as <-. done.
      * rewrite list_lookup_insert_ne in Hj by done.
        eapply Hundo; [|exact Hact]. apply list_elem_of_lookup. eauto.
Qed.

Lemma Inv_init : Inv init.
Proof.
  split; simpl.
  - apply good_nil.
  - constructor.
  - intros t prev Hin. by apply elem_of_nil in Hin.
  - constructor.
Qed.

Lemma rtc_prim_Inv s s' : rtc prim s s' -> Inv s -> Inv s'.
Proof. induction 1; eauto using prim_Inv. Qed.

Lemma Inv_wf s : Inv s -> wf s.
Proof. by intros [(? & _) _ _ _]. Qed.

Lemma reachable_Inv s : reachable s -> Inv s.
Proof.
  induction 1 as [|e s s' _ IH Hstep]; [apply Inv_init|].
  eapply rtc_prim_Inv; [|exact IH].
  eapply handle_prims; [by apply Inv_wf|by destruct IH|exact Hstep].
Qed.

(** ** A merge that copies nothing *)

Lemma merge_loop_toasts (totalPages : N) (items : list FileRecord) (m : MergeLoop) s :
  forall m' s', foldl (merge_step totalPages) (m, s) items = (m', s') ->
  toasts s' = toasts s ++ (partial_failure_toast <$> List.filter copy_fails items).
Proof.
  revert m s. induction items as [|item items IH]; intros m s m' s' Hloop.
  - simpl in *. injection Hloop as <- <-. by rewrite app_nil_r.
  - simpl in Hloop. cbn [List.filter]. unfold copy_fails at 1.
    destruct (load_item item) as [err|srcPages];
      apply IH in Hloop; rewrite Hloop; simpl; [|done].
    by rewrite <- app_assoc.
Qed.

Lemma merge_credit_probed (items : list FileRecord) :
  Forall probed items ->
  merge_credit items = N.of_nat (length (mjoin (pages_of <$> items))).
Proof.
  induction 1 as [|item items Hitem _ IH]; [done|].
  destruct (credit_of_probed item Hitem) as [Hc _].
  rewrite fmap_cons. unfold merge_credit in *. cbn [foldr].
  change (mjoin (pages_of item :: (pages_of <$> items)))
    with (pages_of item ++ mjoin (pages_of <$> items)).
  rewrite length_app, Nat2N.inj_add. lia.
Qed.

(** C2: a merge of a list that is not empty and not called off at the
    confirmation prompt.  When the copy of every record fails: one "Partial
    failure" toast per record, then the "Merge failed" toast with the
    message "No pages were successfully merged"; nothing is downloaded, no
    success is reported, the progress bar stays at 0, the list is
    unchanged.  More generally, in a state the application reaches, when no
    page at all is copied the merge ends the same way, with a "Partial
    failure" toast for each record whose copy failed. *)
Theorem merge_fails_when_every_copy_fails (s : App) (proceed : bool) (now : DateTime) :
  filesArr s <> [] ->
  merge_declined proceed s = false ->
  let s' := mergeBtn_click proceed now s in
  (Forall (fun item => exists err, load_item item = inl err) (records s) ->
     toasts s' = toasts s ++ (partial_failure_toast <$> records s) ++ [merge_failed_toast] /\
     downloads s' = downloads s /\
     progress s' = progress s ++ [0] /\
     heap s' = heap s /\ filesArr s' = filesArr s) /\
  (reachable s -> mjoin (pages_of <$> records s) = [] ->
     toasts s' =
       toasts s ++ (partial_failure_toast <$> List.filter copy_fails (records s)) ++
       [merge_failed_toast] /\
     downloads s' = downloads s /\
     heap s' = heap s /\ filesArr s' = filesArr s).
Proof.
  intros Hne Hgo s'. subst s'. unfold mergeBtn_click.
  rewrite bool_decide_eq_false_2 by done.
  unfold merge_declined in Hgo. rewrite Hgo.
  unfold merge_loop. change (records (set_progress 0 s)) with (records s).
  split.
  - intros Hall. rewrite merge_loop_all_fail by done. simpl.
    destruct (toasts_foldl_showToast (partial_failure_toast <$> records s)
                (set_progress 0 s)) as (Ht & Hh & Hf & Hd & Hp).
    simpl. rewrite Ht, Hh, Hf, Hd, Hp. simpl. by rewrite <- app_assoc.
  - intros Hreach Hnone. apply reachable_Inv in Hreach as HI.
    pose proof (probed_records s (Inv_wf s HI) (inv_probed s HI)) as Hprobed.
    destruct (foldl _ _ (records s)) as [m s1] eqn:Hloop.
    pose proof (merge_loop_toasts _ _ _ _ _ _ Hloop) as Ht.
    apply merge_loop_spec in Hloop as (_ & Ha & Hh & Hf & Hd & _).
    rewrite merge_credit_probed, Hnone in Ha by done. simpl in Ha.
    rewrite Ha. simpl. rewrite Ht, Hh, Hf, Hd. simpl. by rewrite <- app_assoc.
Qed.

(** ** The identifiers *)

Lemma fmap_id_alter_release (h : list FileRecord) (a : loc) :
  rec_id <$> alter release a h = rec_id <$> h.
Proof.
  rewrite (list_fmap_alter rec_id release (fun i => i))
    by (apply Forall_forall; done).
  by apply list_alter_id.
Qed.

Lemma prim_rng s s' : prim s s' -> (rng s <= rng s')%nat.
Proof. destruct 1; simpl; lia. Qed.

Lemma rtc_prim_rng s s' : rtc prim s s' -> (rng s <= rng s')%nat.
Proof.
  induction 1 as [|s1 s2 s3 H12 _ IH]; [done|].
  apply prim_rng in H12. lia.
Qed.

Section FreshDraws.
(** the first [n] draws of [uid()] are pairwise distinct *)
Variable n : nat.
Hypothesis uid_fresh :
  forall i j, (i < n)%nat -> (j < n)%nat -> uid_at i = uid_at j -> i = j.

Lemma prim_IdInv s s' : prim s s' -> (rng s' <= n)%nat -> IdInv s -> IdInv s'.
Proof.
  intros Hprim Hn [Hnd Hdraw].
  destruct Hprim as [s t Ht|s p Hp|s d|s file bytes pdfDoc Hsz Hload|s a|s l Hl|s
                    |s k t previousFiles Hk Ht]; try done.
  - simpl in Hn. split; simpl.
    + rewrite fmap_app. apply NoDup_app. repeat split; [done| |apply NoDup_singleton].
      intros i Hi ->%list_elem_of_singleton.
      apply list_elem_of_fmap in Hi as (r & Hr & Hin).
      rewrite Forall_forall in Hdraw. destruct (Hdraw r Hin) as (k & Hk & Hid).
      change (uid_at (rng s) = rec_id r) in Hr.
      rewrite Hid in Hr. apply uid_fresh in Hr; lia.
    + apply Forall_app. split.
      * eapply Forall_impl; [exact Hdraw|]. simpl.
        intros r (k & Hk & Hid). exists k. split; [lia|done].
      * repeat constructor. exists (rng s). split; [lia|done].
  - split; simpl.
    + by rewrite fmap_id_alter_release.
    + apply Forall_forall. intros r Hr.
      apply list_elem_of_lookup in Hr as [b Hb].
      rewrite list_lookup_alter in Hb. rewrite Forall_forall in Hdraw.
      case_decide; subst.
      * destruct (heap s !! b) as [r0|] eqn:Hr0; [|done]. injection Hb as <-.
        apply (Hdraw r0). apply list_elem_of_lookup. eauto.
      * apply Hdraw. apply list_elem_of_lookup. eauto.
Qed.

Lemma rtc_prim_IdInv s s' :
  rtc prim s s' -> (rng s' <= n)%nat -> IdInv s -> IdInv s'.
Proof.
  induction 1 as [|s1 s2 s3 H12 H23 IH]; [done|]. intros Hn HI.
  apply IH; [done|]. eapply prim_IdInv; [exact H12| |exact HI].
  apply rtc_prim_rng in H23. lia.
Qed.

Lemma reachable_IdInv s : reachable s -> (rng s <= n)%nat -> IdInv s.
Proof.
  induction 1 as [|e s s' Hs IH Hstep]; intros Hn.
  - split; constructor.
  - pose proof (reachable_Inv s Hs) as HI.
    assert (rtc prim s s') as Hprims.
    { eapply handle_prims; [by apply Inv_wf|by destruct HI|exact Hstep]. }
    eapply rtc_prim_IdInv; [exact Hprims|done|].
    apply IH. apply rtc_prim_rng in Hprims. lia.
Qed.

End FreshDraws.

Lemma ids_of_list_NoDup s : Inv s -> IdInv s -> NoDup (rec_id <$> records s).
Proof.
  intros [(Hwf & Hnd & _) _ _ _] [Hids _].
  unfold records. rewrite <- list_fmap_compose.
  apply NoDup_fmap_2_strong; [|done].
  intros a b Ha Hb Heq. simpl in Heq. unfold deref in Heq.
  rewrite Forall_forall in Hwf.
  pose proof (list_lookup_lookup_total_lt _ _ (Hwf a Ha)) as Hla.
  pose proof (list_lookup_lookup_total_lt _ _ (Hwf b Hb)) as Hlb.
  rewrite NoDup_alt in Hids.
  apply (Hids a b (rec_id (heap s !!! a))).
  - by rewrite list_lookup_fmap, Hla.
  - by rewrite list_lookup_fmap, Hlb, Heq.
Qed.

(** C6, under the assumption the script relies on.  [uid()] draws at
    random and checks nothing; as long as the identifiers drawn so far and
    the next one are pairwise distinct, the records of the list have
    distinct identifiers in the state the application has reached, and the
    identifier the next new record gets is none of those of the list. *)
Theorem ids_unique_while_draws_are_fresh (s : App) :
  (forall i j, (i <= rng s)%nat -> (j <= rng s)%nat -> uid_at i = uid_at j -> i = j) ->
  reachable s ->
  NoDup (rec_id <$> records s) /\
  (forall file bytes pdfDoc,
     rec_id (new_record file bytes pdfDoc s) ∉ rec_id <$> records s).
Proof.
  intros Hfresh Hreach.
  pose proof (reachable_Inv s Hreach) as HI.
  assert (IdInv s) as HId.
  { apply (reachable_IdInv (S (rng s))); [|done|lia].
    intros i j Hi Hj. apply Hfresh; lia. }
  split; [by apply ids_of_list_NoDup|].
  intros file bytes pdfDoc Hin.
  change (uid_at (rng s) ∈ rec_id <$> records s) in Hin.
  apply list_elem_of_fmap in Hin as (r & Hr & Hin).
  apply list_elem_of_fmap in Hin as (a & -> & Ha).
  destruct HI as [(Hwf & _) _ _ _]. destruct HId as [_ Hdraw].
  rewrite Forall_forall in Hwf. rewrite Forall_forall in Hdraw.
  destruct (Hdraw (deref s a)) as (k & Hk & Hid).
  { unfold deref. apply list_elem_of_lookup. exists a.
    by apply list_lookup_lookup_total_lt, Hwf. }
  rewrite Hid in Hr. apply Hfresh in Hr; lia.
Qed.

Lemma merge_loop_progress (totalPages : N) (items : list FileRecord) :
  Forall probed items ->
  forall (m : MergeLoop) s m' s',
    foldl (merge_step totalPages) (m, s) items = (m', s') ->
    progress s' = progress s ++ spec_progress totalPages (added m) items.
Proof.
  induction 1 as [|item items Hitem _ IH]; intros m s m' s' Hloop.
  - simpl in *. injection Hloop as <- <-. by rewrite app_nil_r.
  - simpl in Hloop. destruct (credit_of_probed item Hitem) as [Hc _].
    unfold credit_of, pages_of in Hc. cbn [spec_progress].
    destruct (load_item item) as [err|srcPages].
    + apply IH in Hloop. done.
    + apply IH in Hloop. rewrite Hloop. simpl. rewrite Hc.
      by rewrite <- app_assoc.
Qed.

Lemma pages_copied_le_expected (items : list FileRecord) :
  Forall probed items ->
  N.of_nat (length (mjoin (pages_of <$> items))) <=
  foldr (fun f acc => rec_pageCount f + acc) 0 items.
Proof.
  induction 1 as [|item items Hitem _ IH]; [simpl; lia|].
  destruct (credit_of_probed item Hitem) as [Hc Hle].
  rewrite fmap_cons. cbn [foldr].
  change (mjoin (pages_of item :: (pages_of <$> items)))
    with (pages_of item ++ mjoin (pages_of <$> items)).
  rewrite length_app, Nat2N.inj_add. lia.
Qed.


(** ** The ceiling on the total size *)


End Properties.

(** * The properties on the sample world *)

Section Samples.
Import Sample Scenario.
#[local] Existing Instance Scenario.w.
Local Open Scope list_scope.

Local Abbreviation A := (Scenario.A counting).
Local Abbreviation B := (Scenario.B counting).
Local Abbreviation C := (Scenario.C counting).
Local Abbreviation X := (Scenario.X counting).
Local Abbreviation Y := (Scenario.Y counting).
Local Abbreviation F1 := (Scenario.F1 counting).
Local Abbreviation big := (Scenario.big counting).
Local Abbreviation medium := (Scenario.medium counting).
Local Abbreviation small := (Scenario.small counting).
Local Abbreviation empty_pdf := (Scenario.empty_pdf counting).
Local Abbreviation garbage_pdf := (Scenario.garbage_pdf counting).
Local Abbreviation notes_txt := (Scenario.notes_txt counting).



Lemma reachable_s_abc : reachable s_abc.
Proof. exact (reachable_step (EvFiles [A; B; C]) init s_abc reachable_init eq_refl). Qed.

Lemma reachable_s450 : reachable s450.
Proof.
  exact (reachable_step
           (EvFiles [F1; Scenario.F2 counting; Scenario.F3 counting;
                     Scenario.F4 counting; Scenario.F5 counting])
           init s450 reachable_init eq_refl).
Qed.

Lemma wf_s_abc : wf s_abc.
Proof. apply Inv_wf, reachable_Inv, reachable_s_abc. Qed.


(** after "Clear" and "Undo" the buffers of [A; B; C] are gone: the merge
    skips the three records and fails *)
Lemma merge_fails_when_every_copy_fails_witness :
  filesArr s_undone <> [] /\
  (title <$> toasts (mergeBtn_click false now s_undone)) =
    (title <$> toasts s_undone) ++
    ["Partial failure"; "Partial failure"; "Partial failure"; "Merge failed"] /\
  downloads (mergeBtn_click false now s_undone) = [].
Proof.
  assert (filesArr s_undone <> []) as Hne by (vm_compute; discriminate).
  destruct (merge_fails_when_every_copy_fails s_undone false now Hne eq_refl)
    as [Hall _].
  destruct Hall as (Ht & Hd & _).
  - repeat constructor; eexists; reflexivity.
  - split; [exact Hne|]. split.
    + rewrite Ht. reflexivity.
    + rewrite Hd. reflexivity.
Defined.



(** C4 as stated fails once the list is near the ceiling: [f1.pdf] is in
    the list, with the same hash, name and size, yet adding it again ends
    in the "Size limit exceeded" error and is not counted as skipped. *)
Lemma duplicate_near_the_ceiling_is_a_size_error :
  (exists x, x ∈ records s450 /\ same_hash F1 x /\ same_name_size F1 x) /\
  intake_step F1 s450 c0 = (Break, (showToast size_limit_toast s450, c0)) /\
  toasts (handleFiles [F1] s450) = toasts s450 ++ [size_limit_toast].
Proof.
  split; [|split; reflexivity].
  eexists. split; [|split].
  - apply list_elem_of_lookup. exists 0%nat. reflexivity.
  - eexists _, _. repeat split; reflexivity.
  - split; reflexivity.
Qed.

(** [a.pdf] is in the list [A; B; C]: adding it again only counts a skip;
    [x.pdf] is not in the list: adding it appends one record *)
Lemma intake_skips_duplicates_witness :
  wf s_abc /\
  intake_step A s_abc c0 = (Continue, (s_abc, incr_skipped c0)) /\
  rec_name <$> records (intake_step X s_abc c0).2.1 =
    ["a.pdf"; "b.pdf"; "c.pdf"; "x.pdf"].
Proof.
  split; [exact wf_s_abc|]. split.
  - destruct (intake_skips_duplicates A s_abc c0 wf_s_abc) as [Hdup _].
    destruct Hdup as [_ Hskip].
    + eexists. split; [apply list_elem_of_lookup; exists 0%nat; reflexivity|].
      right. split; reflexivity.
    + apply Hskip. split; [reflexivity|]. split; [vm_compute; discriminate|].
      eexists. reflexivity.
  - destruct (intake_skips_duplicates X s_abc c0 wf_s_abc) as [_ Hnew].
    destruct (Hnew) with (bytes := pdf_bytes None ["X1"; "X2"])
                         (pdfDoc := ["X1"; "X2"]) as [Hstep _].
    + intros x Hx. split.
      * intros (b & h & Hb & Hh & _). injection Hb as <-. discriminate Hh.
      * intros [Hn _]. vm_compute in Hx.
        repeat (apply elem_of_cons in Hx as [->|Hx]; [discriminate Hn|]).
        by apply elem_of_nil in Hx.
    + repeat split; vm_compute; discriminate.
    + rewrite Hstep. reflexivity.
Defined.

(** C6 as stated fails when [Math.random] repeats itself: [uid()] checks
    nothing, and the two records added get the same identifier. *)
Lemma colliding_draws_give_equal_ids :
  @reachable w_stuck s_stuck /\
  rec_id <$> @records w_stuck s_stuck = ["4fzyo82"; "4fzyo82"] /\
  ~ NoDup (rec_id <$> @records w_stuck s_stuck).
Proof.
  split; [|split].
  - exact (@reachable_step w_stuck
             (@EvFiles w_stuck [Scenario.A stuck; Scenario.B stuck])
             (@init w_stuck) s_stuck (@reachable_init w_stuck) eq_refl).
  - reflexivity.
  - change (rec_id <$> @records w_stuck s_stuck) with ["4fzyo82"; "4fzyo82"].
    intros Hnd. apply NoDup_cons in Hnd as [Hnotin _].
    apply Hnotin, list_elem_of_here.
Qed.

Lemma ids_unique_while_draws_are_fresh_witness :
  rec_id <$> records s_abc = ["0000000"; "0000001"; "0000002"] /\
  NoDup (rec_id <$> records s_abc).
Proof.
  split; [reflexivity|].
  apply (ids_unique_while_draws_are_fresh s_abc); [|exact reachable_s_abc].
  change (rng s_abc) with 3%nat. intros i j Hi Hj.
  destruct i as [|[|[|[|i]]]]; [| | | |lia];
    (destruct j as [|[|[|[|j]]]]; [| | | |lia]);
    vm_compute; intros Heq; first [reflexivity|discriminate Heq].
Defined.


(** C8 fails on a batch in which every file errors: the empty file and the
    file that is no PDF each get their "Invalid file" toast, the loop ends
    with [errorCount = 2], and nothing is reported after the batch;
    [intake_feedback] never reads [errorCount]. *)
Theorem all_errored_batch_gets_no_report :
  (intake_loop [empty_pdf; garbage_pdf] init c0).2 =
    {| addedCount := 0; skippedCount := 0; errorCount := 2 |} /\
  toasts (handleFiles [empty_pdf; garbage_pdf] init) =
    [mkToast "Invalid file" "empty.pdf: File is empty" TError 3500;
     mkToast "Invalid file" "garbage.pdf is not a valid PDF file" TError 3500] /\
  handleFiles [empty_pdf; garbage_pdf] init =
    (intake_loop [empty_pdf; garbage_pdf] init c0).1.
Proof. repeat split. Qed.

Lemma clear_then_undo_restores_list_witness :
  filesArr s_abc <> [] /\
  exists s2,
    toast_action_click 1 (clearBtn_click s_abc) = Some s2 /\
    filesArr s2 = filesArr s_abc /\
    rec_name <$> records s2 = ["a.pdf"; "b.pdf"; "c.pdf"] /\
    rec_rawBytes <$> records s2 = [None; None; None].
Proof.
  assert (filesArr s_abc <> []) as Hne by (vm_compute; discriminate).
  split; [exact Hne|].
  destruct (clear_then_undo_restores_list s_abc Hne)
    as (_ & _ & s2 & Hundo & _ & Hf & Hr & _).
  exists s2. split; [exact Hundo|]. split; [exact Hf|].
  rewrite Hr. split; reflexivity.
Defined.

(** [x.pdf] and [y.pdf] both fail hashing and differ in name: both are added *)
Lemma absent_hash_compares_name_and_size_witness :
  rec_hash <$> records (intake_loop [X; Y] init c0).1 = [None; None] /\
  rec_name <$> records (intake_loop [X; Y] init c0).1 = ["x.pdf"; "y.pdf"] /\
  (intake_loop [X; Y] init c0).2 = incr_added (incr_added c0).
Proof.
  destruct (absent_hash_compares_name_and_size X Y
              (pdf_bytes None ["X1"; "X2"]) (pdf_bytes None ["Y1"])
              ["X1"; "X2"] ["Y1"] init c0) as (_ & Hdiff & _).
  - constructor.
  - reflexivity.
  - reflexivity.
  - repeat split; vm_compute; discriminate.
  - repeat split; vm_compute; discriminate.
  - intros x Hx. by apply elem_of_nil in Hx.
  - destruct Hdiff as [Hloop Hrec].
    + intros [Hname _]. discriminate Hname.
    + rewrite Hloop. repeat split.
Defined.

End Samples.

(** * Further properties *)

Section MoreProperties.
Context `{W : World}.
Local Open Scope list_scope.

Implicit Types (s : App) (r x : FileRecord) (file : File) (c : Counts).

(** ** The handlers as sequences of checked changes *)

Lemma change_prim s s' : change s s' -> prim s s'.
Proof.
  destruct 1 as [s t Ht|s p Hp|s d|s file bytes pdfDoc Hn Hacc Hf|s a|s l Hl|s
                |s k t previousFiles Hk Ht].
  - by constructor.
  - by constructor.
  - constructor.
  - destruct Hacc as (_ & Hsz & _ & _ & Hload). by constructor.
  - constructor.
  - by constructor.
  - constructor.
  - by econstructor.
Qed.

Lemma rtc_change_Inv s s' : rtc change s s' -> Inv s -> Inv s'.
Proof. induction 1; eauto using prim_Inv, change_prim. Qed.

Lemma intake_step_length file s c :
  (length (filesArr (intake_step file s c).2.1) <= S (length (filesArr s)))%nat.
Proof.
  destruct (intake_step_outcome file s c); simpl; try lia.
  rewrite length_app. simpl. lia.
Qed.

Lemma intake_step_changes file s c :
  (length (filesArr s) < MAX_FILE_COUNT CONFIG)%nat ->
  rtc change s (intake_step file s c).2.1.
Proof.
  intros Hn. destruct (intake_step_outcome file s c); simpl.
  - apply rtc_once. by constructor.
  - apply rtc_once. by constructor.
  - done.
  - apply rtc_once. constructor; done.
Qed.

Lemma intake_loop_changes (pdfs : list File) s c :
  (length (filesArr s) + length pdfs <= MAX_FILE_COUNT CONFIG)%nat ->
  rtc change s (intake_loop pdfs s c).1.
Proof.
  revert s c. induction pdfs as [|file rest IH]; intros s c Hn; [done|].
  cbn [length] in Hn. cbn [intake_loop].
  pose proof (intake_step_changes file s c ltac:(lia)) as Hstep.
  pose proof (intake_step_length file s c) as Hlen.
  destruct (intake_step file s c) as [[] [s' c']]; cbn [fst snd] in *; [|done].
  etrans; [exact Hstep|apply IH; lia].
Qed.

Lemma intake_feedback_changes c s : rtc change s (intake_feedback c s).
Proof.
  unfold intake_feedback.
  destruct (0 <? addedCount c)%nat; [apply rtc_once; by constructor|].
  destruct (0 <? skippedCount c)%nat; [apply rtc_once; by constructor|done].
Qed.

Lemma handleFiles_changes (files : list File) s : rtc change s (handleFiles files s).
Proof.
  unfold handleFiles.
  case_bool_decide; [done|].
  case_bool_decide; [apply rtc_once; by constructor|].
  destruct (Nat.ltb_spec (MAX_FILE_COUNT CONFIG)
              (length (filesArr s) + length (List.filter is_pdf_candidate files)))
    as [Hgt|Hle]; [apply rtc_once; by constructor|].
  pose proof (intake_loop_changes (List.filter is_pdf_candidate files) s
                {| addedCount := 0; skippedCount := 0; errorCount := 0 |} Hle) as Hloop.
  destruct (intake_loop _ s _) as [s' c]. simpl in Hloop.
  etrans; [exact Hloop|apply intake_feedback_changes].
Qed.

Lemma remove_click_changes (target : loc) s : rtc change s (remove_click target s).
Proof.
  unfold remove_click.
  destruct (List.find _ (filesArr s)) as [a|].
  - eapply rtc_l; [apply (change_release s a)|].
    eapply rtc_l; [apply change_select|apply rtc_once; by constructor].
    apply sublist_submseteq, List_filter_sublist.
  - eapply rtc_l; [apply change_select|apply rtc_once; by constructor].
    apply sublist_submseteq, List_filter_sublist.
Qed.

Lemma onEnd_changes (from to : nat) s s' : onEnd from to s = Some s' -> rtc change s s'.
Proof.
  unfold onEnd. destruct (filesArr s !! from) as [moved|] eqn:Hm; [|discriminate].
  intros [= <-]. apply rtc_once, change_select.
  apply Permutation_submseteq. by apply move_Permutation.
Qed.

Lemma releases_changes (l : list loc) s :
  rtc change s (set_heap (foldl (fun (h : list FileRecord) (a : loc) => alter release a h)
                            (heap s) l) s).
Proof.
  revert s. induction l as [|a l IH]; intros s; cbn [foldl].
  - destruct s; done.
  - eapply rtc_l; [apply (change_release s a)|].
    exact (IH (set_heap (alter release a (heap s)) s)).
Qed.

Lemma clearBtn_click_changes s : rtc change s (clearBtn_click s).
Proof.
  unfold clearBtn_click. case_bool_decide; [done|].
  etrans; [apply (releases_changes (filesArr s) s)|].
  apply rtc_once, (change_clear (cleanupMemory s)).
Qed.

Lemma toast_action_click_changes (k : nat) s s' :
  toast_action_click k s = Some s' -> rtc change s s'.
Proof.
  unfold toast_action_click.
  destruct (toasts s !! k) as [t|] eqn:Hk; [|discriminate].
  destruct (onAction t) as [previousFiles|] eqn:Ht; [|discriminate].
  intros [= <-].
  eapply rtc_l; [by eapply change_undo|]. apply rtc_once. by constructor.
Qed.

Lemma merge_loop_changes (totalPages : N) (items : list FileRecord) (m : MergeLoop) s :
  Forall probed items ->
  added m + foldr (fun f acc => rec_pageCount f + acc) 0 items <= totalPages ->
  rtc change s (foldl (merge_step totalPages) (m, s) items).2.
Proof.
  intros Hp. revert m s. induction Hp as [|item items Hitem _ IH]; intros m s Hle.
  - done.
  - simpl in *. destruct (credit_of_probed item Hitem) as [_ Hc].
    unfold credit_of in Hc.
    destruct (load_item item) as [err|srcPages].
    + eapply rtc_l; [by apply (change_toast s (partial_failure_toast item))|].
      apply IH. lia.
    + eapply rtc_l; [|apply IH; simpl; lia].
      apply change_progress, percent_le_100. lia.
Qed.

Lemma mergeBtn_click_changes (proceed : bool) (now : DateTime) s :
  wf s -> Forall probed (heap s) -> rtc change s (mergeBtn_click proceed now s).
Proof.
  intros Hwf Hp. unfold mergeBtn_click.
  case_bool_decide; [done|].
  destruct (_ && _)%bool; [done|].
  eapply rtc_l; [apply (change_progress s 0); lia|].
  unfold merge_loop. change (records (set_progress 0 s)) with (records s).
  pose proof (merge_loop_changes (totalPagesOf (records s)) (records s)
                {| outPdf := []; added := 0 |} (set_progress 0 s)
                (probed_records s Hwf Hp)) as Hloop.
  destruct (foldl _ _ (records s)) as [m s1]. simpl in Hloop.
  etrans.
  { apply Hloop. unfold totalPagesOf. rewrite foldl_pageCount_shift. lia. }
  destruct (added m =? 0).
  - apply rtc_once. by constructor.
  - eapply rtc_l; [apply change_download|].
    eapply rtc_l; [apply (change_progress _ 100); lia|].
    eapply rtc_l; [|apply (releases_changes (filesArr s1))].
    by apply change_toast.
Qed.

Lemma handle_changes (e : Event) s s' :
  Inv s -> handle e s = Some s' -> rtc change s s'.
Proof.
  intros HI. destruct e as [files|target|from to|proceed now| |k]; simpl.
  - intros [= <-]. apply handleFiles_changes.
  - case_bool_decide; [|discriminate]. intros [= <-]. apply remove_click_changes.
  - apply onEnd_changes.
  - intros [= <-]. apply mergeBtn_click_changes; [by apply Inv_wf|by destruct HI].
  - intros [= <-]. apply clearBtn_click_changes.
  - apply toast_action_click_changes.
Qed.

(** an invariant of the changes is an invariant of the application *)
Lemma reachable_change_ind (J : App -> Prop) :
  J init ->
  (forall s s', Inv s -> J s -> change s s' -> J s') ->
  forall s, reachable s -> J s.
Proof.
  intros Hinit Hstep s Hreach.
  induction Hreach as [|e s s' Hs IH Hhandle]; [done|].
  pose proof (reachable_Inv s Hs) as HI.
  pose proof (handle_changes e s s' HI Hhandle) as Hchanges.
  clear Hhandle Hs. induction Hchanges as [|s1 s2 s3 H12 H23 IH']; [done|].
  apply IH'; [by eapply Hstep|eauto using prim_Inv, change_prim].
Qed.

(** ** The ceiling on the number of records *)

Lemma elem_of_toasts_insert_disarm (ts : list Toast) (k : nat) t t' previousFiles :
  t' ∈ <[k := disarm t]> ts -> onAction t' = Some previousFiles -> t' ∈ ts.
Proof.
  intros Hin Hact. apply list_elem_of_lookup in Hin as [j Hj].
  destruct (decide (k = j)) as [->|Hne].
  - destruct (decide (j < length ts)%nat) as [Hlt|Hge].
    + rewrite list_lookup_insert_eq in Hj by done. injection Hj as <-. done.
    + rewrite list_insert_ge in Hj by lia. apply list_elem_of_lookup. eauto.
  - rewrite list_lookup_insert_ne in Hj by done. apply list_elem_of_lookup. eauto.
Qed.

Lemma change_CountInv s s' : change s s' -> CountInv s -> CountInv s'.
Proof.
  intros Hchange [Hlen Hundo].
  destruct Hchange as [s t Ht|s p Hp|s d|s file bytes pdfDoc Hn Hacc Hf|s a|s l Hl|s
                      |s k t previousFiles Hk Ht]; split; simpl in *; try done.
  - intros t' prev [Hin| ->%list_elem_of_singleton]%elem_of_app Hact.
    + by eapply Hundo.
    + congruence.
  - rewrite length_app. simpl. lia.
  - apply submseteq_length in Hl. lia.
  - lia.
  - intros t' prev [Hin| ->%list_elem_of_singleton]%elem_of_app Hact.
    + by eapply Hundo.
    + simpl in Hact. by injection Hact as <-.
  - eapply Hundo; [|exact Ht]. apply list_elem_of_lookup. eauto.
  - intros t' prev Hin Hact. eapply Hundo; [|exact Hact].
    by eapply elem_of_toasts_insert_disarm.
Qed.

Lemma reachable_CountInv s : reachable s -> CountInv s.
Proof.
  apply reachable_change_ind.
  - split; simpl; [lia|]. intros t prev Hin. by apply elem_of_nil in Hin.
  - intros s1 s2 _ HJ Hc. by eapply change_CountInv.
Qed.

(** ** The records of the store *)

Lemma Forall_alter_release (P : FileRecord -> Prop) (h : list FileRecord) (a : loc) :
  (forall r, P r -> P (release r)) ->
  Forall P h -> Forall P (alter release a h).
Proof.
  intros Hrel Hp. apply Forall_forall. intros r Hr.
  apply list_elem_of_lookup in Hr as [b Hb].
  rewrite list_lookup_alter in Hb. rewrite Forall_forall in Hp. case_decide; subst.
  - destruct (h !! b) as [r0|] eqn:Hr0; [|done]. injection Hb as <-.
    apply Hrel, Hp. apply list_elem_of_lookup. eauto.
  - apply Hp. apply list_elem_of_lookup. eauto.
Qed.

Lemma intact_release r : intact r -> intact (release r).
Proof.
  intros (H0 & Hmax & Hn & Hs & bytes & pdfDoc & Hb & Hh & Hl & Hp & Hhash & _).
  repeat split; try done. exists bytes, pdfDoc. repeat split; try done. by right.
Qed.

Lemma intact_new_record file bytes pdfDoc s :
  acceptable file bytes pdfDoc s -> intact (new_record file bytes pdfDoc s).
Proof.
  intros (Hv & _ & Hb & Hh & Hl). apply validateFile_ok in Hv as [H0 Hmax].
  repeat split; try done. exists bytes, pdfDoc. repeat split; try done. by left.
Qed.

Lemma change_intact s s' :
  change s s' -> Forall intact (heap s) -> Forall intact (heap s').
Proof.
  destruct 1 as [s t Ht|s p Hp|s d|s file bytes pdfDoc Hn Hacc Hf|s a|s l Hl|s
                |s k t previousFiles Hk Ht]; simpl; try done.
  - intros Hall. apply Forall_app. split; [done|].
    constructor; [by apply intact_new_record|constructor].
  - apply Forall_alter_release, intact_release.
Qed.

Lemma reachable_intact s : reachable s -> Forall intact (heap s).
Proof.
  revert s. apply (reachable_change_ind (fun s => Forall intact (heap s)));
    [constructor|].
  intros s1 s2 _ HJ Hc. by eapply change_intact.
Qed.

Lemma Forall_heap_records (P : FileRecord -> Prop) s :
  wf s -> Forall P (heap s) -> Forall P (records s).
Proof.
  intros Hwf Hp. unfold records. apply Forall_fmap, Forall_forall.
  intros a Ha. simpl. rewrite Forall_forall in Hp. apply Hp.
  unfold wf in Hwf. rewrite Forall_forall in Hwf. specialize (Hwf a Ha).
  unfold deref. apply list_elem_of_lookup. exists a.
  by apply list_lookup_lookup_total_lt.
Qed.

(** ** The store only grows *)

Lemma fmap_release_alter (h : list FileRecord) (a : loc) :
  release <$> alter release a h = release <$> h.
Proof.
  rewrite (list_fmap_alter release release (fun r => r))
    by (apply Forall_forall; done).
  by apply list_alter_id.
Qed.

Lemma change_store_grows s s' :
  change s s' -> (release <$> heap s) `prefix_of` (release <$> heap s').
Proof.
  destruct 1 as [s t Ht|s p Hp|s d|s file bytes pdfDoc Hn Hacc Hf|s a|s l Hl|s
                |s k t previousFiles Hk Ht]; simpl; try done.
  - rewrite fmap_app. by apply prefix_app_r.
  - by rewrite fmap_release_alter.
Qed.

Lemma rtc_change_store_grows s s' :
  rtc change s s' -> (release <$> heap s) `prefix_of` (release <$> heap s').
Proof.
  induction 1 as [|s1 s2 s3 H12 _ IH]; [done|].
  etrans; [by apply change_store_grows|done].
Qed.

(** ** No duplicates in the list *)

Lemma omap_hash_release (l : list FileRecord) :
  omap rec_hash (release <$> l) = omap rec_hash l.
Proof. induction l as [|r l IH]; [done|]. csimpl. by rewrite IH. Qed.

Lemma distinct_release (l : list FileRecord) : distinct (release <$> l) <-> distinct l.
Proof.
  unfold distinct. rewrite omap_hash_release, <- list_fmap_compose. done.
Qed.

Lemma distinct_release_eq (l1 l2 : list FileRecord) :
  release <$> l1 = release <$> l2 -> distinct l1 -> distinct l2.
Proof. intros Heq H1. apply distinct_release. rewrite <- Heq. by apply distinct_release. Qed.

Lemma distinct_Permutation (l1 l2 : list FileRecord) :
  l1 ≡ₚ l2 -> distinct l1 -> distinct l2.
Proof. intros Hp [H1 H2]. split; by rewrite <- Hp. Qed.

Lemma distinct_app_l (l k : list FileRecord) : distinct (l ++ k) -> distinct l.
Proof.
  intros [H1 H2]. rewrite fmap_app in H1. rewrite omap_app in H2.
  apply NoDup_app in H1 as [? _]. apply NoDup_app in H2 as [? _]. done.
Qed.

Lemma distinct_objects_sub (h : list FileRecord) (l l' : list loc) :
  l' ⊆+ l -> distinct (objects h l) -> distinct (objects h l').
Proof.
  intros Hsub Hd. destruct (submseteq_Permutation _ _ Hsub) as [k Hk].
  apply (distinct_app_l _ (objects h k)). unfold objects in *.
  rewrite <- fmap_app. eapply distinct_Permutation; [|exact Hd]. by rewrite Hk.
Qed.

Lemma distinct_snoc (l : list FileRecord) r :
  distinct l ->
  (forall x, x ∈ l -> name_size x <> name_size r) ->
  (forall h x, rec_hash r = Some h -> x ∈ l -> rec_hash x <> Some h) ->
  distinct (l ++ [r]).
Proof.
  intros [H1 H2] Hns Hh. split.
  - rewrite fmap_app. apply NoDup_app. repeat split; [done| |apply NoDup_singleton].
    intros k Hk ->%list_elem_of_singleton.
    apply list_elem_of_fmap in Hk as (x & Hx & Hin). by apply (Hns x Hin).
  - rewrite omap_app. apply NoDup_app. repeat split; [done| |].
    + intros h Hin Hr. apply list_elem_of_omap in Hin as (x & Hin & Hx).
      apply list_elem_of_omap in Hr as (r' & ->%list_elem_of_singleton & Hr).
      by apply (Hh h x Hr Hin).
    + csimpl. destruct (rec_hash r); [apply NoDup_singleton|constructor].
Qed.

Lemma objects_release_ext (h h' : list FileRecord) (l : list loc) :
  (forall a, a ∈ l -> release (h' !!! a) = release (h !!! a)) ->
  release <$> objects h' l = release <$> objects h l.
Proof.
  intros Hext. unfold objects. rewrite <- !list_fmap_compose.
  apply Forall_fmap_ext_1, Forall_forall. intros a Ha. simpl. by apply Hext.
Qed.

Lemma release_alter_release (h : list FileRecord) (a b : loc) :
  release (alter release a h !!! b) = release (h !!! b).
Proof. rewrite alter_release_lookup. by case_decide. Qed.

Lemma not_duplicate_new (file : File) (bytes : Bytes) (l : list FileRecord) x :
  List.find (is_duplicate_of file (hashFile bytes)) l = None ->
  x ∈ l ->
  ~ same_name_size file x /\
  (forall h, hashFile bytes = Some h -> rec_hash x <> Some h).
Proof.
  intros Hf Hin. apply find_duplicate_None in Hf. rewrite Forall_forall in Hf.
  specialize (Hf x Hin). split.
  - intros Hns. assert (is_duplicate_of file (hashFile bytes) x = true) as Ht.
    { apply is_duplicate_of_spec. by right. }
    congruence.
  - intros h Hh Hx. assert (is_duplicate_of file (hashFile bytes) x = true) as Ht.
    { apply is_duplicate_of_spec. left. exists h. eauto using hashFile_not_empty. }
    congruence.
Qed.

Lemma change_DistinctInv s s' : Inv s -> DistinctInv s -> change s s' -> DistinctInv s'.
Proof.
  intros [(Hwf & _) _ Hgood _] [Hlist Hundo] Hchange.
  destruct Hchange as [s t Ht|s p Hp|s d|s file bytes pdfDoc Hn Hacc Hf|s a|s l Hl|s
                      |s k t previousFiles Hk Ht].
  - split; [done|]. simpl.
    intros t' prev [Hin| ->%list_elem_of_singleton]%elem_of_app Hact.
    + by eapply Hundo.
    + congruence.
  - done.
  - done.
  - split.
    + rewrite (records_push _ (uid s).2 Hwf).
      change (records (uid s).2) with (records s).
      apply distinct_snoc; [done| |].
      * intros x Hx Heq.
        destruct (not_duplicate_new file bytes (records s) x Hf Hx) as [Hns _].
        apply Hns. unfold name_size in Heq. simpl in Heq. injection Heq as Hn1 Hn2.
        by split.
      * intros h x Hh Hx.
        destruct (not_duplicate_new file bytes (records s) x Hf Hx) as [_ Hhash].
        by apply Hhash.
    + simpl. intros t prev Hin Hact.
      destruct (Hgood t prev Hin Hact) as (Hprev & _).
      eapply distinct_release_eq; [|by eapply Hundo].
      symmetry. apply objects_release_ext. intros a Ha.
      rewrite Forall_forall in Hprev. by rewrite lookup_total_app_l by by apply Hprev.
  - split; simpl.
    + eapply distinct_release_eq; [|exact Hlist]. symmetry.
      apply (objects_release_ext (heap s) (alter release a (heap s)) (filesArr s)).
      intros b _. apply release_alter_release.
    + intros t prev Hin Hact.
      eapply distinct_release_eq; [|by eapply Hundo]. symmetry.
      apply objects_release_ext. intros b _. apply release_alter_release.
  - split; [|done]. by apply (distinct_objects_sub (heap s) (filesArr s) l).
  - split; simpl.
    + split; constructor.
    + intros t prev [Hin| ->%list_elem_of_singleton]%elem_of_app Hact.
      * by eapply Hundo.
      * simpl in Hact. by injection Hact as <-.
  - split; simpl.
    + eapply (Hundo t); [|exact Ht]. apply list_elem_of_lookup. eauto.
    + intros t' prev Hin Hact. eapply Hundo; [|exact Hact].
      by eapply elem_of_toasts_insert_disarm.
Qed.

Lemma reachable_DistinctInv s : reachable s -> DistinctInv s.
Proof.
  revert s. apply (reachable_change_ind DistinctInv).
  - split; simpl.
    + split; constructor.
    + intros t prev Hin. by apply elem_of_nil in Hin.
  - intros s1 s2 HI HJ Hc. by eapply change_DistinctInv.
Qed.

(** ** Invariants of the application *)


(** X2: every record of the list comes from a file that went through all
    the checks of the intake: it is not empty and within the per-file
    limit, its name and size are those of its file, its bytes start with
    the PDF signature and load, its page count is that of the loaded
    document, its hash is the hash of those bytes, and its buffer holds
    those bytes or has been released. *)
Theorem records_are_intact (s : App) :
  reachable s -> Forall intact (records s).
Proof.
  intros Hreach. apply Forall_heap_records.
  - by apply Inv_wf, reachable_Inv.
  - by apply reachable_intact.
Qed.



(** ** The counters of a batch *)

Lemma intake_step_accounts file s c :
  ((intake_step file s c).1 = Continue /\
   counted (intake_step file s c).2.2 = S (counted c) /\
   (length (filesArr (intake_step file s c).2.1) + addedCount c =
    length (filesArr s) + addedCount (intake_step file s c).2.2)%nat) \/
  ((intake_step file s c).1 = Break /\
   intake_step file s c = (Break, (showToast size_limit_toast s, c))).
Proof.
  pose proof (intake_step_cutoff file s c) as Hcut.
  destruct (intake_step_outcome file s c) as [t|t ? ? Hv Hsz|bytes e|bytes pdfDoc].
  - left. unfold counted. simpl. repeat split; lia.
  - right. split; [done|]. by apply Hcut.
  - left. unfold counted. simpl. repeat split; lia.
  - left. unfold counted. simpl. rewrite length_app. simpl. repeat split; lia.
Qed.

(** X5: the counters of the intake loop account for the batch.  The number
    of records appended is the number of files counted as added; every
    candidate processed bumps exactly one of the three counters; and the
    loop leaves candidates unprocessed only when it has stopped on the
    "Size limit exceeded" toast. *)
Theorem intake_counters_account (pdfs : list File) (s : App) (c : Counts) :
  (length (filesArr (intake_loop pdfs s c).1) + addedCount c =
   length (filesArr s) + addedCount (intake_loop pdfs s c).2)%nat /\
  (counted (intake_loop pdfs s c).2 <= counted c + length pdfs)%nat /\
  (counted (intake_loop pdfs s c).2 = (counted c + length pdfs)%nat \/
   exists ts, toasts (intake_loop pdfs s c).1 = ts ++ [size_limit_toast]).
Proof.
  revert s c. induction pdfs as [|file rest IH]; intros s c.
  - simpl. split; [lia|]. split; [lia|]. left. lia.
  - cbn [intake_loop length].
    destruct (intake_step_accounts file s c) as [(Hflow & Hcount & Hlen)|[Hflow Heq]].
    + destruct (intake_step file s c) as [flow [s1 c1]]. simpl in *. subst flow.
      destruct (IH s1 c1) as (IHlen & IHle & IHall).
      split; [lia|]. split; [lia|].
      destruct IHall as [Hall|Hstop]; [left; lia|by right].
    + rewrite Heq. simpl. split; [lia|]. split; [lia|].
      right. by exists (toasts s).
Qed.

(** ** Removing a record *)

Lemma fmap_List_filter {A B} (f : A -> B) (p : B -> bool) (l : list A) :
  f <$> List.filter (fun a => p (f a)) l = List.filter p (f <$> l).
Proof.
  induction l as [|a l IH]; [done|]. rewrite fmap_cons. cbn [List.filter].
  destruct (p (f a)); [rewrite fmap_cons|]; by rewrite IH.
Qed.

Lemma List_filter_ext_in {A} (p q : A -> bool) (l : list A) :
  (forall a, a ∈ l -> p a = q a) -> List.filter p l = List.filter q l.
Proof.
  induction l as [|a l IH]; intros Hext; [done|]. cbn [List.filter].
  rewrite (Hext a) by apply list_elem_of_here.
  rewrite IH; [done|]. intros b Hb. apply Hext. by apply list_elem_of_further.
Qed.

Lemma elem_of_List_filter {A} (p : A -> bool) (l : list A) (a : A) :
  a ∈ List.filter p l <-> a ∈ l /\ p a = true.
Proof. rewrite !list_elem_of_In. apply filter_In. Qed.

Lemma List_find_Some_elem {A} (p : A -> bool) (l : list A) (a : A) :
  List.find p l = Some a -> a ∈ l /\ p a = true.
Proof. intros H. apply find_some in H. by rewrite list_elem_of_In. Qed.

Lemma records_after_select (t : Toast) (l : list loc) s :
  records (showToast t (set_filesArr l s)) = deref s <$> l.
Proof. reflexivity. Qed.

Lemma records_remove_click (target : loc) s :
  records (remove_click target s) =
  List.filter (fun r => negb (bool_decide (rec_id r = rec_id (deref s target))))
    (records s).
Proof.
  unfold remove_click. set (fid := rec_id (deref s target)).
  set (p := fun r : FileRecord => negb (bool_decide (rec_id r = fid))).
  destruct (List.find _ (filesArr s)) as [a|] eqn:Hfind.
  - apply List_find_Some_elem in Hfind as [Ha Hida].
    apply bool_decide_eq_true in Hida.
    set (s1 := set_heap (alter release a (heap s)) s).
    rewrite records_after_select. change (filesArr s1) with (filesArr s).
    assert (forall b : loc, rec_id (deref s1 b) = rec_id (deref s b)) as Hid.
    { intros b. unfold deref, s1. simpl. rewrite alter_release_lookup.
      by case_decide. }
    rewrite (List_filter_ext_in _ (fun b : loc => p (deref s b)))
      by (intros b _; unfold p; by rewrite Hid).
    unfold records. rewrite <- (fmap_List_filter (deref s) p).
    apply Forall_fmap_ext_1, Forall_forall. intros b Hx.
    apply elem_of_List_filter in Hx as [_ Hx]. unfold p in Hx.
    apply negb_true_iff, bool_decide_eq_false in Hx.
    unfold deref, s1. simpl. rewrite alter_release_lookup.
    case_decide; [subst; done|done].
  - rewrite records_after_select.
    unfold records. by rewrite <- (fmap_List_filter (deref s) p).
Qed.

(** X6: the remove button takes out of the list every record that has the
    identifier of the record it was rendered for, and nothing else; the
    records that stay keep their order and their buffers, and the toast
    names the record the button was rendered for. *)
Theorem remove_click_filters_by_id (target : loc) (s : App) :
  records (remove_click target s) =
    List.filter (fun r => negb (bool_decide (rec_id r = rec_id (deref s target))))
      (records s) /\
  records (remove_click target s) `sublist_of` records s /\
  (rec_id (deref s target) ∉ rec_id <$> records (remove_click target s)) /\
  toasts (remove_click target s) =
    toasts s ++ [mkToast "Removed" (rec_name (deref s target) +:+ " removed") TInfo 2000].
Proof.
  rewrite records_remove_click. split; [done|]. split; [|split].
  - apply List_filter_sublist.
  - intros Hin. apply list_elem_of_fmap in Hin as (r & Hid & Hr).
    apply elem_of_List_filter in Hr as [_ Hr].
    apply negb_true_iff, bool_decide_eq_false in Hr. done.
  - unfold remove_click. by destruct (List.find _ (filesArr s)).
Qed.

Lemma filter_unique_delete {A B} `{EqDecision B} (f : A -> B) (l : list A) (i : nat) (x : A) :
  NoDup (f <$> l) -> l !! i = Some x ->
  List.filter (fun y => negb (bool_decide (f y = f x))) l = delete i l.
Proof.
  revert i. induction l as [|y l IH]; intros i Hnd Hi; [done|].
  rewrite fmap_cons in Hnd. apply NoDup_cons in Hnd as [Hnotin Hnd].
  cbn [List.filter]. destruct i as [|i]; simpl in Hi.
  - injection Hi as ->. rewrite bool_decide_eq_true_2 by done. simpl.
    rewrite (List_filter_ext_in _ (fun _ => true)).
    + clear. induction l as [|z l IH]; [done|]. simpl. by rewrite IH.
    + intros z Hz. apply negb_true_iff, bool_decide_eq_false. intros Heq.
      apply Hnotin. rewrite <- Heq. by apply list_elem_of_fmap_2.
  - rewrite bool_decide_eq_false_2; simpl.
    + by rewrite (IH i).
    + intros Heq. apply Hnotin. rewrite Heq.
      apply list_elem_of_fmap_2. apply list_elem_of_lookup. eauto.
Qed.

(** X7: when the identifiers of the list are distinct, the remove button of
    the record at position [i] deletes exactly that record, releases its
    buffer, leaves every other object as it is and says so in a toast. *)
Theorem remove_click_deletes_one (target : loc) (i : nat) (s : App) :
  wf s ->
  NoDup (rec_id <$> records s) ->
  filesArr s !! i = Some target ->
  let s' := remove_click target s in
  records s' = delete i (records s) /\
  rec_rawBytes (deref s' target) = None /\
  (forall a, a <> target -> deref s' a = deref s a) /\
  toasts s' =
    toasts s ++ [mkToast "Removed" (rec_name (deref s target) +:+ " removed") TInfo 2000].
Proof.
  intros Hwf Hnd Hi s'. subst s'. split.
  { rewrite records_remove_click.
    apply (filter_unique_delete rec_id); [done|].
    unfold records. by rewrite list_lookup_fmap, Hi. }
  assert (target ∈ filesArr s) as Hin by (apply list_elem_of_lookup; eauto).
  unfold remove_click.
  destruct (List.find _ (filesArr s)) as [a|] eqn:Hfind.
  - apply List_find_Some_elem in Hfind as [Ha Hida].
    apply bool_decide_eq_true in Hida.
    assert (a = target) as ->.
    { apply list_elem_of_lookup in Ha as [j Hj].
      assert (j = i) as ->; [|congruence].
      rewrite NoDup_alt in Hnd.
      apply (Hnd j i (rec_id (deref s target))); unfold records;
        rewrite !list_lookup_fmap.
      - rewrite Hj. simpl. by rewrite Hida.
      - by rewrite Hi. }
    repeat split.
    + unfold deref. simpl. rewrite list_lookup_total_alter_eq; [done|].
      unfold wf in Hwf. rewrite Forall_forall in Hwf. by apply Hwf.
    + intros b Hb. unfold deref. simpl. by rewrite list_lookup_total_alter_ne.
  - exfalso. apply find_none with (x := target) in Hfind.
    + by apply bool_decide_eq_false in Hfind.
    + by apply list_elem_of_In.
Qed.

(** ** Reordering *)

Lemma length_splice_insert {A} (to : nat) (x : A) (l : list A) :
  length (splice_insert to x l) = S (length l).
Proof.
  unfold splice_insert. rewrite length_app. simpl.
  rewrite length_take, length_drop. lia.
Qed.

Lemma lookup_splice_insert {A} (to : nat) (x : A) (l : list A) :
  splice_insert to x l !! (Nat.min to (length l)) = Some x.
Proof.
  unfold splice_insert. apply list_lookup_middle. by rewrite length_take.
Qed.

Lemma delete_splice_insert {A} (to : nat) (x : A) (l : list A) :
  delete (Nat.min to (length l)) (splice_insert to x l) = l.
Proof.
  unfold splice_insert. rewrite <- (length_take l to).
  rewrite delete_middle. apply take_drop.
Qed.

Lemma splice_insert_delete {A} (i : nat) (x : A) (l : list A) :
  l !! i = Some x -> splice_insert i x (delete i l) = l.
Proof.
  intros Hi. pose proof (lookup_lt_Some _ _ _ Hi) as Hlt.
  unfold splice_insert. rewrite delete_take_drop.
  rewrite take_app_length' by (rewrite length_take; lia).
  rewrite drop_app_length' by (rewrite length_take; lia).
  by apply take_drop_middle.
Qed.

(** X8: [onEnd] refuses an old index outside the list; otherwise it moves
    one record and nothing else: the list keeps its records and its length,
    the record that was at [from] is now at [to] (at the end when [to] is
    past the end), and the store and the toasts are untouched. *)
Theorem onEnd_moves_one_record (from to : nat) (s : App) :
  (onEnd from to s = None <-> (length (records s) <= from)%nat) /\
  (forall s', onEnd from to s = Some s' ->
     records s' ≡ₚ records s /\
     length (records s') = length (records s) /\
     records s' !! (Nat.min to (length (records s) - 1)) = records s !! from /\
     delete (Nat.min to (length (records s) - 1)) (records s') = delete from (records s) /\
     heap s' = heap s /\ toasts s' = toasts s).
Proof.
  split.
  - unfold onEnd, records. rewrite length_fmap.
    destruct (filesArr s !! from) as [a|] eqn:Ha.
    + apply lookup_lt_Some in Ha. split; [discriminate|lia].
    + apply lookup_ge_None in Ha. done.
  - intros s' Hmove.
    destruct (onEnd_records _ _ _ _ Hmove) as (moved & Hfrom & Hrec & Hheap & _).
    assert (length (delete from (records s)) = length (records s) - 1)%nat as Hlen.
    { apply length_delete. by rewrite Hfrom. }
    repeat split.
    + rewrite Hrec. by apply move_Permutation.
    + rewrite Hrec, length_splice_insert, Hlen.
      apply lookup_lt_Some in Hfrom. lia.
    + rewrite Hrec, Hfrom, <- Hlen. apply lookup_splice_insert.
    + rewrite Hrec, <- Hlen. apply delete_splice_insert.
    + done.
    + unfold onEnd in Hmove. destruct (filesArr s !! from); [|discriminate].
      by injection Hmove as <-.
Qed.

(** X9: dragging a record back to where it came from restores the list:
    after [onEnd from to], [onEnd to from] gives the state before; and
    dropping a record where it was changes nothing. *)
Theorem onEnd_round_trip (from to : nat) (s s1 : App) :
  onEnd from to s = Some s1 ->
  (to < length (filesArr s))%nat ->
  onEnd to from s1 = Some s /\ (from = to -> s1 = s).
Proof.
  unfold onEnd. destruct (filesArr s !! from) as [moved|] eqn:Hfrom; [|discriminate].
  intros [= <-] Hto.
  pose proof (lookup_lt_Some _ _ _ Hfrom) as Hlt.
  assert (length (delete from (filesArr s)) = length (filesArr s) - 1)%nat as Hlen.
  { apply length_delete. by rewrite Hfrom. }
  assert (Nat.min to (length (delete from (filesArr s))) = to) as Hmin by lia.
  split.
  - cbn [filesArr set_filesArr].
    pose proof (lookup_splice_insert to moved (delete from (filesArr s))) as Hl.
    pose proof (delete_splice_insert to moved (delete from (filesArr s))) as Hd.
    rewrite Hmin in Hl, Hd. rewrite Hl, Hd.
    rewrite (splice_insert_delete from moved (filesArr s) Hfrom).
    by destruct s.
  - intros <-. rewrite (splice_insert_delete from moved (filesArr s) Hfrom).
    by destruct s.
Qed.

(** ** Undo *)

(** X10: the action of a toast can be used once: after the click that
    restored the list, the same toast has no action left. *)
Theorem undo_only_once (k : nat) (s s' : App) :
  toast_action_click k s = Some s' ->
  toast_action_click k s' = None /\
  exists t, toasts s !! k = Some t /\ onAction t = Some (filesArr s').
Proof.
  unfold toast_action_click.
  destruct (toasts s !! k) as [t|] eqn:Hk; [|discriminate].
  destruct (onAction t) as [previousFiles|] eqn:Ht; [|discriminate].
  intros [= <-]. cbn [toasts showToast filesArr].
  pose proof (lookup_lt_Some _ _ _ Hk) as Hlt. split; [|by exists t].
  rewrite lookup_app_l by by rewrite length_insert.
  by rewrite list_lookup_insert_eq.
Qed.

Lemma load_item_release r : exists err, load_item (release r) = inl err.
Proof. unfold load_item. simpl. eauto. Qed.

Lemma totalPagesOf_release (l : list FileRecord) :
  totalPagesOf (release <$> l) = totalPagesOf l.
Proof.
  unfold totalPagesOf. generalize 0. induction l as [|r l IH]; intros n; [done|].
  rewrite fmap_cons. cbn [foldl]. apply IH.
Qed.

Lemma mergeBtn_click_all_fail s (proceed : bool) (now : DateTime) :
  filesArr s <> [] ->
  merge_declined proceed s = false ->
  Forall (fun item => exists err, load_item item = inl err) (records s) ->
  mergeBtn_click proceed now s =
    showToast merge_failed_toast
      (foldl (fun s t => showToast t s) (set_progress 0 s)
         (partial_failure_toast <$> records s)).
Proof.
  intros Hne Hgo Hall. unfold mergeBtn_click.
  rewrite bool_decide_eq_false_2 by done.
  unfold merge_declined in Hgo. rewrite Hgo. unfold merge_loop.
  change (records (set_progress 0 s)) with (records s).
  by rewrite merge_loop_all_fail.
Qed.

Lemma mergeBtn_click_succeeds s (proceed : bool) (now : DateTime) :
  filesArr s <> [] ->
  merge_declined proceed s = false ->
  merge_credit (records s) <> 0 ->
  mergeBtn_click proceed now s =
    cleanupMemory
      (showToast (success_toast (merge_credit (records s)) now)
         (set_progress 100
            (add_download {| dl_filename := merged_filename now;
                             dl_pages := mjoin (pages_of <$> records s) |}
               (merge_loop (totalPagesOf (records s)) (records s) (set_progress 0 s)).2))).
Proof.
  intros Hne Hgo Hcredit. unfold mergeBtn_click.
  rewrite bool_decide_eq_false_2 by done.
  unfold merge_declined in Hgo. rewrite Hgo. unfold merge_loop.
  change (records (set_progress 0 s)) with (records s).
  destruct (foldl _ _ (records s)) as [m s1] eqn:Hloop.
  apply merge_loop_spec in Hloop as (Ho & Ha & _). simpl in Ho, Ha.
  rewrite (proj2 (N.eqb_neq _ _)) by (rewrite Ha; lia).
  cbn [snd]. unfold success_toast. by rewrite Ho, Ha.
Qed.

(** a merge over records without buffers: every record is skipped, nothing
    is downloaded *)
Lemma mergeBtn_click_without_buffers s (proceed : bool) (now : DateTime) :
  Forall (fun r => rec_rawBytes r = None) (records s) ->
  downloads (mergeBtn_click proceed now s) = downloads s /\
  heap (mergeBtn_click proceed now s) = heap s /\
  filesArr (mergeBtn_click proceed now s) = filesArr s /\
  (filesArr s <> [] -> merge_declined proceed s = false ->
   toasts (mergeBtn_click proceed now s) =
     toasts s ++ (partial_failure_toast <$> records s) ++ [merge_failed_toast]).
Proof.
  intros Hnone.
  assert (Forall (fun item => exists err, load_item item = inl err) (records s)) as Hall.
  { eapply Forall_impl; [exact Hnone|]. intros r Hr. unfold load_item.
    rewrite Hr. eauto. }
  destruct (decide (filesArr s = [])) as [Hnil|Hne].
  { unfold mergeBtn_click. by rewrite bool_decide_eq_true_2. }
  destruct (merge_declined proceed s) eqn:Hgo.
  { unfold mergeBtn_click. rewrite bool_decide_eq_false_2 by done.
    unfold merge_declined in Hgo. by rewrite Hgo. }
  rewrite mergeBtn_click_all_fail by done.
  destruct (toasts_foldl_showToast (partial_failure_toast <$> records s)
              (set_progress 0 s)) as (Ht & Hh & Hf & Hd & _).
  cbn [downloads heap filesArr toasts showToast].
  rewrite Ht, Hh, Hf, Hd. repeat split; try done.
  intros _ _. cbn [toasts set_progress]. by rewrite <- app_assoc.
Qed.


(** ** Merging again *)

Lemma partial_failure_toast_release (l : list FileRecord) :
  partial_failure_toast <$> (release <$> l) = partial_failure_toast <$> l.
Proof. rewrite <- list_fmap_compose. by apply list_fmap_ext. Qed.

(** X11: a merge is a one-shot operation.  A merge that succeeds keeps the
    list, record for record, and takes every buffer away; merging the same
    list again downloads nothing: every record is skipped with a "Partial
    failure" toast and the merge fails. *)
Theorem merge_is_one_shot
    (s : App) (proceed proceed' : bool) (now now' : DateTime) :
  filesArr s <> [] ->
  merge_declined proceed s = false ->
  merge_credit (records s) <> 0 ->
  let s1 := mergeBtn_click proceed now s in
  let s2 := mergeBtn_click proceed' now' s1 in
  filesArr s1 = filesArr s /\
  records s1 = release <$> records s /\
  downloads s2 = downloads s1 /\
  records s2 = records s1 /\
  (merge_declined proceed' s = false ->
   toasts s2 =
     toasts s1 ++ (partial_failure_toast <$> records s) ++ [merge_failed_toast]).
Proof.
  intros Hne Hgo Hcredit s1 s2.
  assert (filesArr s1 = filesArr s /\ records s1 = release <$> records s) as [Hf Hrec].
  { unfold s1. rewrite mergeBtn_click_succeeds by done.
    rewrite records_cleanupMemory. unfold merge_loop.
    change (records (set_progress 0 s)) with (records s).
    destruct (foldl _ _ (records s)) as [m s0] eqn:Hloop.
    apply merge_loop_spec in Hloop as (_ & _ & Hh & Hf & _).
    cbn [snd filesArr cleanupMemory set_heap showToast set_progress add_download].
    split; [done|]. unfold records, deref.
    cbn [heap filesArr showToast set_progress add_download].
    by rewrite Hh, Hf. }
  assert (Forall (fun r => rec_rawBytes r = None) (records s1)) as Hnone.
  { rewrite Hrec. by apply Forall_fmap, Forall_true. }
  destruct (mergeBtn_click_without_buffers s1 proceed' now' Hnone)
    as (Hd & Hh & Hf' & Ht).
  fold s2 in Hd, Hh, Hf', Ht.
  split; [done|]. split; [done|]. split; [done|]. split.
  - unfold records, deref. by rewrite Hh, Hf'.
  - intros Hgo'. rewrite Ht.
    + by rewrite Hrec, partial_failure_toast_release.
    + by rewrite Hf.
    + unfold merge_declined. rewrite Hrec, totalPagesOf_release. exact Hgo'.
Qed.

(** X12: the list that "Undo" puts back after "Clear" cannot be merged: its
    buffers are gone, so a merge skips every record, downloads nothing and
    fails. *)
Theorem restored_list_cannot_be_merged
    (s s' : App) (proceed : bool) (now : DateTime) :
  filesArr s <> [] ->
  toast_action_click (length (toasts s)) (clearBtn_click s) = Some s' ->
  records s' = release <$> records s /\
  downloads (mergeBtn_click proceed now s') = downloads s /\
  (merge_declined proceed s = false ->
   toasts (mergeBtn_click proceed now s') =
     toasts s' ++ (partial_failure_toast <$> records s) ++ [merge_failed_toast]).
Proof.
  intros Hne Hundo.
  assert (filesArr s' = filesArr s /\ heap s' = heap (cleanupMemory s) /\
          downloads s' = downloads s) as (Hf & Hh & Hd).
  { revert Hundo. unfold clearBtn_click. rewrite bool_decide_eq_false_2 by done.
    unfold toast_action_click. cbn [toasts showToast set_filesArr].
    change (toasts (cleanupMemory s)) with (toasts s).
    rewrite lookup_app_r by lia. rewrite Nat.sub_diag. cbn.
    by intros [= <-]. }
  assert (records s' = release <$> records s) as Hrec.
  { rewrite <- records_cleanupMemory. unfold records, deref.
    rewrite Hf, Hh. done. }
  assert (Forall (fun r => rec_rawBytes r = None) (records s')) as Hnone.
  { rewrite Hrec. by apply Forall_fmap, Forall_true. }
  destruct (mergeBtn_click_without_buffers s' proceed now Hnone)
    as (Hd' & _ & _ & Ht).
  split; [done|]. split; [by rewrite Hd'|].
  intros Hgo. rewrite Ht.
  - by rewrite Hrec, partial_failure_toast_release.
  - by rewrite Hf.
  - unfold merge_declined. rewrite Hrec, totalPagesOf_release. exact Hgo.
Qed.


(** ** The progress bar and the report of a merge *)

Lemma percent_mono (a b totalPages : N) :
  a <= b -> percent a totalPages <= percent b totalPages.
Proof. intros Hle. unfold percent. apply N.Div0.div_le_mono. lia. Qed.

Lemma spec_progress_sorted (totalPages copied : N) (items : list FileRecord) :
  StronglySorted N.le (spec_progress totalPages copied items) /\
  Forall (fun p => percent copied totalPages <= p) (spec_progress totalPages copied items).
Proof.
  revert copied. induction items as [|item items IH]; intros copied.
  - split; constructor.
  - cbn [spec_progress]. destruct (load_item item) as [err|srcPages]; [apply IH|].
    destruct (IH (copied + N.of_nat (length srcPages))) as [Hs Hf].
    split.
    + by constructor.
    + constructor; [apply percent_mono; lia|].
      eapply Forall_impl; [exact Hf|]. intros p Hp. simpl in *.
      etrans; [|exact Hp]. apply percent_mono. lia.
Qed.


(** X14: the report of a successful merge is exact.  In a state the
    application reaches, a merge that copies at least one page downloads
    one document, made of the pages copied, sets the bar to 100 and ends
    with the "Success!" toast, whose page count is the number of pages of
    the document downloaded. *)
Theorem success_toast_counts_the_pages
    (s : App) (proceed : bool) (now : DateTime) :
  reachable s ->
  filesArr s <> [] ->
  merge_declined proceed s = false ->
  mjoin (pages_of <$> records s) <> [] ->
  let s' := mergeBtn_click proceed now s in
  exists d,
    downloads s' = downloads s ++ [d] /\
    dl_pages d = mjoin (pages_of <$> records s) /\
    dl_filename d = merged_filename now /\
    last (toasts s') = Some (success_toast (N.of_nat (length (dl_pages d))) now) /\
    last (progress s') = Some 100.
Proof.
  intros Hreach Hne Hgo Hpages s'.
  apply reachable_Inv in Hreach as HI.
  pose proof (probed_records s (Inv_wf s HI) (inv_probed s HI)) as Hprobed.
  pose proof (merge_credit_probed _ Hprobed) as Hcredit.
  assert (merge_credit (records s) <> 0) as Hpos.
  { rewrite Hcredit. destruct (mjoin (pages_of <$> records s)); [done|].
    simpl; lia. }
  unfold s'. rewrite mergeBtn_click_succeeds by done.
  unfold merge_loop. change (records (set_progress 0 s)) with (records s).
  destruct (foldl _ _ (records s)) as [m s1] eqn:Hloop.
  apply merge_loop_spec in Hloop as (_ & _ & _ & _ & Hd & _).
  eexists. cbn [downloads toasts progress cleanupMemory set_heap showToast
                set_progress add_download snd].
  rewrite Hd. split; [reflexivity|]. cbn [dl_pages dl_filename].
  rewrite !last_snoc, Hcredit. done.
Qed.

(** ** What an intake leaves alone *)

Lemma intake_loop_appends (pdfs : list File) s c :
  wf s ->
  exists new,
    records (intake_loop pdfs s c).1 = records s ++ new /\
    heap (intake_loop pdfs s c).1 = heap s ++ new /\
    rec_file <$> new `sublist_of` pdfs /\
    Forall (fun r => is_Some (rec_rawBytes r)) new /\
    downloads (intake_loop pdfs s c).1 = downloads s /\
    progress (intake_loop pdfs s c).1 = progress s.
Proof.
  revert s c. induction pdfs as [|file rest IH]; intros s c Hwf.
  - exists []. simpl. rewrite !app_nil_r. repeat split; constructor.
  - cbn [intake_loop].
    destruct (intake_step_outcome file s c) as [t|t|bytes e|bytes pdfDoc].
    + destruct (IH (showToast t s) (incr_error c) Hwf)
        as (new & Hr & Hh & Hsub & Hb & Hd & Hp).
      exists new. repeat split; try done. by apply sublist_cons.
    + exists []. simpl. rewrite !app_nil_r. repeat split; try constructor.
      apply sublist_nil_l.
    + destruct (IH s (incr_skipped c) Hwf) as (new & Hr & Hh & Hsub & Hb & Hd & Hp).
      exists new. repeat split; try done. by apply sublist_cons.
    + set (r := new_record file bytes pdfDoc s) in *.
      destruct (IH (push r (uid s).2) (incr_added c))
        as (new & Hr & Hh & Hsub & Hb & Hd & Hp).
      { by apply wf_push, wf_uid. }
      exists (r :: new).
      rewrite records_push in Hr by by apply wf_uid.
      change (records (uid s).2) with (records s) in Hr.
      cbn [heap push uid snd] in Hh.
      rewrite <- app_assoc in Hr, Hh.
      repeat split; try done.
      * rewrite fmap_cons. by apply sublist_skip.
      * constructor; [by eexists|done].
Qed.

Lemma intake_feedback_toasts_only c s :
  heap (intake_feedback c s) = heap s /\
  filesArr (intake_feedback c s) = filesArr s /\
  downloads (intake_feedback c s) = downloads s /\
  progress (intake_feedback c s) = progress s.
Proof. unfold intake_feedback. by repeat case_match. Qed.

Lemma handleFiles_appends (files : list File) s :
  wf s ->
  exists new,
    records (handleFiles files s) = records s ++ new /\
    heap (handleFiles files s) = heap s ++ new /\
    rec_file <$> new `sublist_of` List.filter is_pdf_candidate files /\
    Forall (fun r => is_Some (rec_rawBytes r)) new /\
    downloads (handleFiles files s) = downloads s /\
    progress (handleFiles files s) = progress s.
Proof.
  intros Hwf. unfold handleFiles.
  case_bool_decide.
  { exists []. rewrite !app_nil_r. repeat split; try constructor. apply sublist_nil_l. }
  case_bool_decide.
  { exists []. rewrite !app_nil_r. repeat split; try constructor. apply sublist_nil_l. }
  destruct (_ <? _)%nat.
  { exists []. rewrite !app_nil_r. repeat split; try constructor. apply sublist_nil_l. }
  destruct (intake_loop_appends (List.filter is_pdf_candidate files) s
              {| addedCount := 0; skippedCount := 0; errorCount := 0 |} Hwf)
    as (new & Hr & Hh & Hsub & Hb & Hd & Hp).
  destruct (intake_loop _ s _) as [s' c]. cbn [fst] in *.
  destruct (intake_feedback_toasts_only c s') as (Hh' & Hf' & Hd' & Hp').
  exists new. unfold records, deref in *. rewrite Hh', Hf', Hd', Hp'. done.
Qed.

(** X15: an intake only appends.  Whatever the batch, the records of the
    list stay where they are, untouched; the new records come after them,
    at most one per file of the batch and in the order of the batch, each
    with its buffer; nothing is downloaded and the progress bar is not
    touched. *)
Theorem handleFiles_only_appends (files : list File) (s : App) :
  wf s ->
  exists new,
    records (handleFiles files s) = records s ++ new /\
    heap (handleFiles files s) = heap s ++ new /\
    rec_file <$> new `sublist_of` files /\
    Forall (fun r => is_Some (rec_rawBytes r)) new /\
    downloads (handleFiles files s) = downloads s /\
    progress (handleFiles files s) = progress s.
Proof.
  intros Hwf.
  destruct (handleFiles_appends files s Hwf) as (new & Hr & Hh & Hsub & Hrest).
  exists new. split; [done|]. split; [done|]. split; [|done].
  etrans; [exact Hsub|]. apply List_filter_sublist.
Qed.

(** ** The downloads *)

Lemma handle_downloads (e : Event) s s' :
  Inv s -> handle e s = Some s' ->
  downloads s' = downloads s \/
  exists d, downloads s' = downloads s ++ [d] /\ dl_pages d <> [].
Proof.
  intros HI. destruct e as [files|target|from to|proceed now| |k]; simpl.
  - intros [= <-]. left.
    destruct (handleFiles_appends files s (Inv_wf s HI)) as (? & ? & ? & ? & ? & ? & ?).
    done.
  - case_bool_decide; [|discriminate]. intros [= <-]. left.
    unfold remove_click. by destruct (List.find _ (filesArr s)).
  - unfold onEnd. destruct (filesArr s !! from); [|discriminate].
    intros [= <-]. by left.
  - intros [= <-].
    pose proof (probed_records s (Inv_wf s HI) (inv_probed s HI)) as Hprobed.
    pose proof (merge_credit_probed _ Hprobed) as Hcredit.
    unfold mergeBtn_click. case_bool_decide; [by left|].
    destruct (_ && _)%bool; [by left|].
    unfold merge_loop. change (records (set_progress 0 s)) with (records s).
    destruct (foldl _ _ (records s)) as [m s1] eqn:Hloop.
    apply merge_loop_spec in Hloop as (Ho & Ha & _ & _ & Hd & _).
    simpl in Ho, Ha, Hd.
    destruct (N.eqb_spec (added m) 0) as [Hz|Hnz]; [by left|].
    right. eexists. split.
    + cbn [downloads cleanupMemory set_heap showToast set_progress add_download].
      by rewrite Hd.
    + cbn [dl_pages]. rewrite Ho. intros Hnil. rewrite Hnil in Hcredit.
      simpl in Hcredit. lia.
  - intros [= <-]. left. unfold clearBtn_click. by case_bool_decide.
  - unfold toast_action_click. destruct (toasts s !! k) as [t|]; [|discriminate].
    destruct (onAction t); [|discriminate]. intros [= <-]. by left.
Qed.

(** X16: no empty document is ever produced: in every state the
    application reaches, each download has at least one page. *)
Theorem no_empty_download (s : App) :
  reachable s -> Forall (fun d => dl_pages d <> []) (downloads s).
Proof.
  induction 1 as [|e s s' Hreach IH Hstep]; [constructor|].
  destruct (handle_downloads e s s' (reachable_Inv s Hreach) Hstep)
    as [->|(d & -> & Hd)]; [done|].
  apply Forall_app. split; [done|]. by constructor.
Qed.

(** ** The error toasts of an intake *)


(** ** Removing, then merging *)


(** ** Strings *)

Lemma str_app_nil_l (t : string) : "" +:+ t = t.
Proof. reflexivity. Qed.

Lemma str_app_cons (a : ascii) (s t : string) : String a s +:+ t = String a (s +:+ t).
Proof. reflexivity. Qed.

Lemma str_app_assoc (s t u : string) : (s +:+ t) +:+ u = s +:+ t +:+ u.
Proof. induction s as [|a s IH]; [done|]. by rewrite !str_app_cons, IH. Qed.

Lemma str_length_app (s t : string) :
  String.length (s +:+ t) = (String.length s + String.length t)%nat.
Proof.
  induction s as [|a s IH]; [done|]. rewrite str_app_cons. cbn [String.length].
  by rewrite IH.
Qed.

Lemma chars_app (s t : string) : chars (s +:+ t) = chars s ++ chars t.
Proof.
  induction s as [|a s IH]; [done|]. rewrite str_app_cons. cbn [chars].
  by rewrite IH.
Qed.

Lemma length_substring_0 (n : nat) (s : string) :
  String.length (substring 0 n s) = Nat.min n (String.length s).
Proof.
  revert s. induction n as [|n IH]; intros [|a s]; try done.
  cbn [substring String.length]. by rewrite IH.
Qed.

(** ** hashFile *)

Lemma String2_inj (a b a' b' : ascii) (s s' : string) :
  String a (String b s) = String a' (String b' s') -> a = a' /\ b = b' /\ s = s'.
Proof. by intros [= -> -> ->]. Qed.

Lemma concat_hex2_cons (b : Byte.byte) (l : list Byte.byte) :
  String.concat "" (hex2 <$> b :: l) = hex2 b +:+ String.concat "" (hex2 <$> l).
Proof. by destruct l. Qed.

Lemma hexdigit_code (n : nat) :
  (n < 16)%nat ->
  nat_of_ascii (hexdigit n) = if (n <? 10)%nat then (48 + n)%nat else (87 + n)%nat.
Proof.
  intros Hn. unfold hexdigit.
  destruct (n <? 10)%nat; apply nat_ascii_embedding; lia.
Qed.

Lemma hexdigit_inj (n m : nat) :
  (n < 16)%nat -> (m < 16)%nat -> hexdigit n = hexdigit m -> n = m.
Proof.
  intros Hn Hm Heq. apply (f_equal nat_of_ascii) in Heq.
  rewrite !hexdigit_code in Heq by done.
  destruct (Nat.ltb_spec n 10), (Nat.ltb_spec m 10); lia.
Qed.

Lemma hexdigit_hex (n : nat) : (n < 16)%nat -> hexdigit n ∈ hex_digits.
Proof.
  intros Hn. do 16 (destruct n as [|n]; [by apply (bool_decide_unpack _)|]). lia.
Qed.

Lemma hex2_inj (b1 b2 : Byte.byte) : hex2 b1 = hex2 b2 -> b1 = b2.
Proof.
  unfold hex2.
  pose proof (Byte.to_nat_bounded b1) as H1.
  pose proof (Byte.to_nat_bounded b2) as H2.
  pose proof (Byte.of_to_nat b1) as Hb1.
  pose proof (Byte.of_to_nat b2) as Hb2.
  revert H1 H2 Hb1 Hb2.
  generalize (Byte.to_nat b1) (Byte.to_nat b2). intros n1 n2 H1 H2 Hb1 Hb2 Heq.
  apply String2_inj in Heq as (Hhi & Hlo & _).
  apply hexdigit_inj in Hhi; [|apply Nat.Div0.div_lt_upper_bound; lia..].
  apply hexdigit_inj in Hlo; [|apply Nat.mod_upper_bound; lia..].
  assert (n1 = n2) as Heqn.
  { rewrite (Nat.div_mod_eq n1 16), (Nat.div_mod_eq n2 16). by rewrite Hhi, Hlo. }
  subst n2. rewrite Hb1 in Hb2. by injection Hb2.
Qed.

Lemma concat_hex2_inj (l1 l2 : list Byte.byte) :
  String.concat "" (hex2 <$> l1) = String.concat "" (hex2 <$> l2) -> l1 = l2.
Proof.
  revert l2. induction l1 as [|b1 l1 IH]; intros [|b2 l2]; try done.
  - rewrite concat_hex2_cons. unfold hex2. rewrite str_app_cons. discriminate.
  - rewrite concat_hex2_cons. unfold hex2. rewrite str_app_cons. discriminate.
  - rewrite !concat_hex2_cons. unfold hex2. rewrite !str_app_cons, !str_app_nil_l.
    intros Heq. apply String2_inj in Heq as (Hhi & Hlo & Hrest).
    f_equal; [|by apply IH].
    apply hex2_inj. unfold hex2. by rewrite Hhi, Hlo.
Qed.

Lemma concat_hex2_shape (l : list Byte.byte) :
  String.length (String.concat "" (hex2 <$> l)) = (2 * length l)%nat /\
  Forall (fun a => a ∈ hex_digits) (chars (String.concat "" (hex2 <$> l))).
Proof.
  induction l as [|b l [IHlen IHhex]]; [by split; [|constructor]|].
  rewrite concat_hex2_cons. unfold hex2 at 1 3. rewrite !str_app_cons, str_app_nil_l.
  cbn [String.length chars length].
  pose proof (Byte.to_nat_bounded b) as Hb.
  split; [lia|].
  constructor; [apply hexdigit_hex, Nat.Div0.div_lt_upper_bound; lia|].
  constructor; [apply hexdigit_hex, Nat.mod_upper_bound; lia|done].
Qed.

(** X19: the hash string stands for the digest.  Two buffers get the same
    result from [hashFile] exactly when [crypto.subtle.digest] answers the
    same for both; a hash is a string of 64 lowercase hexadecimal digits,
    never the empty string the duplicate test would take for no hash. *)
Theorem hashFile_is_faithful (b1 b2 : Bytes) :
  (hashFile b1 = hashFile b2 <-> subtle_digest b1 = subtle_digest b2) /\
  (hashFile b1 = None <-> subtle_digest b1 = None) /\
  (forall h, hashFile b1 = Some h ->
     String.length h = 64%nat /\ Forall (fun a => a ∈ hex_digits) (chars h)).
Proof.
  unfold hashFile. split; [|split].
  - destruct (subtle_digest b1) as [d1|], (subtle_digest b2) as [d2|]; try done.
    split; intros [= Heq]; [|by rewrite Heq].
    f_equal. by apply concat_hex2_inj.
  - by destruct (subtle_digest b1).
  - intros h. destruct (subtle_digest b1) as [d1|] eqn:Hd; [|done].
    intros [= <-]. destruct (concat_hex2_shape d1) as [Hlen Hhex].
    rewrite Hlen, (subtle_digest_length b1 d1 Hd). done.
Qed.

(** ** escapeHtml *)

Lemma replaceAll_app (s t : string) (c : ascii) (rep : string) :
  replaceAll (s +:+ t) c rep = replaceAll s c rep +:+ replaceAll t c rep.
Proof.
  induction s as [|a s IH]; [done|]. rewrite str_app_cons. cbn [replaceAll].
  case_bool_decide; rewrite IH; [by rewrite str_app_assoc|done].
Qed.

Lemma escapeHtml_cons (a : ascii) (s : string) :
  escapeHtml (String a s) = html_entity a +:+ escapeHtml s.
Proof.
  unfold escapeHtml, html_entity. cbn [replaceAll].
  case_bool_decide as H1; [by rewrite !replaceAll_app|].
  cbn [replaceAll]. case_bool_decide as H2; [by rewrite !replaceAll_app|].
  cbn [replaceAll]. case_bool_decide as H3; [by rewrite !replaceAll_app|].
  cbn [replaceAll]. case_bool_decide as H4; [by rewrite !replaceAll_app|].
  cbn [replaceAll]. by case_bool_decide as H5.
Qed.

Lemma escapeHtml_escape_each (s : string) : escapeHtml s = escape_each s.
Proof. induction s as [|a s IH]; [done|]. by rewrite escapeHtml_cons, IH. Qed.

Lemma escape_each_app (s t : string) :
  escape_each (s +:+ t) = escape_each s +:+ escape_each t.
Proof.
  induction s as [|a s IH]; [done|]. rewrite str_app_cons. cbn [escape_each].
  by rewrite IH, str_app_assoc.
Qed.

(** X20: [escapeHtml] works character by character, in one pass: each of
    the five characters & < > double quote and ' is replaced by its entity
    and every other character is kept, so the [&] of an entity it has
    written is not escaped again.  Escaping commutes with concatenation,
    and a text without these characters is returned as it is. *)
Theorem escapeHtml_is_character_wise (s t : string) :
  escapeHtml s = escape_each s /\
  escapeHtml (s +:+ t) = escapeHtml s +:+ escapeHtml t /\
  (Forall (fun a => html_special a = false) (chars s) -> escapeHtml s = s).
Proof.
  split; [apply escapeHtml_escape_each|]. split.
  - rewrite !escapeHtml_escape_each. apply escape_each_app.
  - rewrite escapeHtml_escape_each. induction s as [|a s IH]; [done|].
    cbn [chars escape_each]. intros Hall. apply Forall_cons in Hall as [Ha Hall].
    rewrite IH by done. unfold html_special in Ha. unfold html_entity.
    repeat case_bool_decide; done.
Qed.

(** X21: without DOMPurify, what [sanitizeHtml] returns has no character
    that opens a tag or closes an attribute: no < > double quote or '. *)
Theorem escaped_text_has_no_markup (html : string) :
  Forall (fun a => a <> "<"%char /\ a <> ">"%char /\ a <> dquote /\ a <> "'"%char)
    (chars (sanitizeHtml None html)).
Proof.
  cbn [sanitizeHtml]. rewrite escapeHtml_escape_each.
  induction html as [|a html IH]; [constructor|].
  cbn [escape_each]. rewrite chars_app. apply Forall_app. split; [|done].
  unfold html_entity. repeat case_bool_decide; try by repeat constructor.
Qed.

(** ** The message of a failed merge *)

(** X22: the message of the "Merge failed" toast has at most 100
    characters: a longer error message is cut to its first 97 characters
    followed by three dots, a shorter one is shown as it is. *)
Theorem merge_failed_message_is_short (errorMsg : string) :
  (String.length (truncate_msg errorMsg) <= 100)%nat /\
  ((String.length errorMsg <= 100)%nat -> truncate_msg errorMsg = errorMsg) /\
  ((100 < String.length errorMsg)%nat ->
   truncate_msg errorMsg = substring 0 97 errorMsg +:+ "..." /\
   String.length (truncate_msg errorMsg) = 100%nat).
Proof.
  unfold truncate_msg.
  destruct (Nat.ltb_spec 100 (String.length errorMsg)) as [Hlong|Hshort].
  - rewrite str_length_app, length_substring_0. cbn [String.length].
    split; [lia|]. split; [lia|]. intros _. split; [done|lia].
  - split; [lia|]. split; [done|lia].
Qed.

(** ** The theme *)

(** X23: the theme chosen with the toggle is the theme of the next visit.
    The toggle flips the class [dark] and stores the result; [initTheme]
    on a page loaded with that storage applies the stored theme, whatever
    the class list of the new page and whatever the system prefers.
    Toggling twice gives back the class list. *)
Theorem theme_choice_persists (st : ThemeState) (cl : gset string) (prefersDark : bool) :
  let st' := themeToggle_click st in
  let reloaded := initTheme prefersDark {| classList := cl; localStorage := localStorage st' |} in
  ("dark" ∈ classList st' <-> "dark" ∉ classList st) /\
  ("dark" ∈ classList reloaded <-> "dark" ∈ classList st') /\
  localStorage reloaded = localStorage st' /\
  classList (themeToggle_click st') = classList st.
Proof.
  intros st' reloaded. unfold reloaded, st', initTheme, themeToggle_click.
  cbn [classList localStorage]. rewrite lookup_insert_eq.
  destruct (decide ("dark" ∈ classList st)) as [Hin|Hout].
  - rewrite (bool_decide_eq_true_2 _ Hin). cbn [negb].
    rewrite bool_decide_eq_false_2 by done. unfold applyTheme.
    rewrite bool_decide_eq_false_2 by done. cbn [classList localStorage].
    assert ("dark" ∉ classList st ∖ {["dark"]}) as Hout'.
    { rewrite elem_of_difference, elem_of_singleton. tauto. }
    rewrite (bool_decide_eq_false_2 _ Hout'). cbn [negb].
    split; [tauto|]. split; [|split; [done|]].
    + rewrite elem_of_difference, elem_of_singleton. tauto.
    + apply set_eq. intros y.
      rewrite elem_of_union, elem_of_difference, elem_of_singleton.
      destruct (decide (y = "dark")) as [->|]; tauto.
  - rewrite (bool_decide_eq_false_2 _ Hout). cbn [negb].
    rewrite bool_decide_eq_false_2 by done. unfold applyTheme.
    rewrite bool_decide_eq_true_2 by done. cbn [classList localStorage].
    assert ("dark" ∈ classList st ∪ {["dark"]}) as Hin'.
    { rewrite elem_of_union, elem_of_singleton. tauto. }
    rewrite (bool_decide_eq_true_2 _ Hin'). cbn [negb].
    split; [tauto|]. split; [|split; [done|]].
    + rewrite elem_of_union, elem_of_singleton. tauto.
    + apply set_eq. intros y.
      rewrite elem_of_difference, elem_of_union, elem_of_singleton.
      destruct (decide (y = "dark")) as [->|]; tauto.
Qed.

(** ** formatBytes *)


(** ** validateFile *)

(** X25: [validateFile] never returns two errors, so the intake loop, which
    shows the first one only, loses none.  It returns no error exactly for
    a size between 1 byte and the per-file limit, "File is empty" for an
    empty file and "File exceeds 100.0 MB limit" above the limit. *)
Theorem validateFile_reports_one_error (file : File) :
  (length (validateFile file) <= 1)%nat /\
  (validateFile file = [] <->
   0 < file_size file /\ file_size file <= MAX_FILE_SIZE CONFIG) /\
  (file_size file = 0 -> validateFile file = ["File is empty"]) /\
  (MAX_FILE_SIZE CONFIG < file_size file ->
   validateFile file = ["File exceeds 100.0 MB limit"]).
Proof.
  unfold validateFile.
  destruct (N.ltb_spec (MAX_FILE_SIZE CONFIG) (file_size file)) as [Hbig|Hfit];
    destruct (N.eqb_spec (file_size file) 0) as [Hzero|Hpos].
  - rewrite Hzero in Hbig. by apply N.nlt_0_r in Hbig.
  - split; [simpl; lia|]. split; [split; [done|lia]|]. split; [done|].
    intros _. reflexivity.
  - split; [simpl; lia|]. split; [split; [done|lia]|]. split; [done|lia].
  - split; [simpl; lia|]. split; [split; [lia|done]|]. split; [done|lia].
Qed.

End MoreProperties.

(** * The further properties on the sample world *)

Section MoreSamples.
Import Sample Scenario.
#[local] Existing Instance Scenario.w.
Local Open Scope list_scope.

Local Abbreviation A := (Scenario.A counting).
Local Abbreviation B := (Scenario.B counting).
Local Abbreviation C := (Scenario.C counting).
Local Abbreviation X := (Scenario.X counting).
Local Abbreviation Y := (Scenario.Y counting).
Local Abbreviation F1 := (Scenario.F1 counting).
Local Abbreviation small := (Scenario.small counting).


Lemma records_are_intact_witness :
  rec_name <$> records s_abc = ["a.pdf"; "b.pdf"; "c.pdf"] /\
  Forall intact (records s_abc).
Proof. split; [reflexivity|]. exact (records_are_intact s_abc reachable_s_abc). Defined.



(** the middle record of [A; B; C] removed: [A; C] stay *)
Lemma remove_click_deletes_one_witness :
  rec_name <$> records (remove_click 1%nat s_abc) = ["a.pdf"; "c.pdf"] /\
  records (remove_click 1%nat s_abc) = delete 1%nat (records s_abc).
Proof.
  split; [reflexivity|].
  refine (proj1 (remove_click_deletes_one 1%nat 1%nat s_abc wf_s_abc _ eq_refl)).
  apply (bool_decide_unpack _). vm_compute. exact I.
Defined.

(** the first record of [A; B; C] dragged to the end *)
Lemma onEnd_moves_one_record_witness :
  onEnd 0 2 s_abc = Some (set_filesArr [1; 2; 0]%nat s_abc) /\
  records (set_filesArr [1; 2; 0]%nat s_abc) !! 2%nat = records s_abc !! 0%nat.
Proof.
  split; [reflexivity|].
  destruct (onEnd_moves_one_record 0 2 s_abc) as [_ Hmove].
  destruct (Hmove (set_filesArr [1; 2; 0]%nat s_abc) eq_refl) as (_ & _ & Hto & _).
  exact Hto.
Defined.

(** ... and dragged back *)
Lemma onEnd_round_trip_witness :
  onEnd 0 2 s_abc = Some (set_filesArr [1; 2; 0]%nat s_abc) /\
  onEnd 2 0 (set_filesArr [1; 2; 0]%nat s_abc) = Some s_abc.
Proof.
  split; [reflexivity|].
  refine (proj1 (onEnd_round_trip 0 2 s_abc (set_filesArr [1; 2; 0]%nat s_abc) eq_refl _)).
  vm_compute. lia.
Defined.

(** "Undo" after "Clear" of [A; B; C], clicked a second time *)
Lemma undo_only_once_witness :
  toast_action_click 1 (clearBtn_click s_abc) = Some s_undone /\
  toast_action_click 1 s_undone = None.
Proof.
  split; [reflexivity|].
  exact (proj1 (undo_only_once 1 (clearBtn_click s_abc) s_undone eq_refl)).
Defined.

(** [A; B; C] merged twice: one download *)
Lemma merge_is_one_shot_witness :
  length (downloads (mergeBtn_click false now s_abc)) = 1%nat /\
  downloads (mergeBtn_click false now (mergeBtn_click false now s_abc)) =
    downloads (mergeBtn_click false now s_abc).
Proof.
  split; [reflexivity|].
  refine (proj1 (proj2 (proj2
    (merge_is_one_shot s_abc false false now now _ eq_refl _)))).
  - vm_compute. discriminate.
  - vm_compute. discriminate.
Defined.

Lemma restored_list_cannot_be_merged_witness :
  toast_action_click (length (toasts s_abc)) (clearBtn_click s_abc) = Some s_undone /\
  downloads (mergeBtn_click false now s_undone) = downloads s_abc.
Proof.
  split; [reflexivity|].
  refine (proj1 (proj2
    (restored_list_cannot_be_merged s_abc s_undone false now _ eq_refl))).
  vm_compute. discriminate.
Defined.


Lemma success_toast_counts_the_pages_witness :
  last (toasts (mergeBtn_click false now s_abc)) =
    Some (mkToast "Success!" "Merged 3 pages into merged-20240105_0730.pdf" TSuccess 4000) /\
  exists d,
    downloads (mergeBtn_click false now s_abc) = downloads s_abc ++ [d] /\
    dl_pages d = mjoin (pages_of <$> records s_abc) /\
    dl_filename d = merged_filename now /\
    last (toasts (mergeBtn_click false now s_abc)) =
      Some (success_toast (N.of_nat (length (dl_pages d))) now) /\
    last (progress (mergeBtn_click false now s_abc)) = Some 100.
Proof.
  split; [reflexivity|].
  apply (success_toast_counts_the_pages s_abc false now reachable_s_abc).
  - vm_compute. discriminate.
  - reflexivity.
  - vm_compute. discriminate.
Defined.

(** [X] and [Y] added to [A; B; C] *)
Lemma handleFiles_only_appends_witness :
  rec_name <$> records (handleFiles [X; Y] s_abc) =
    ["a.pdf"; "b.pdf"; "c.pdf"; "x.pdf"; "y.pdf"] /\
  exists new,
    records (handleFiles [X; Y] s_abc) = records s_abc ++ new /\
    heap (handleFiles [X; Y] s_abc) = heap s_abc ++ new /\
    rec_file <$> new `sublist_of` [X; Y] /\
    Forall (fun r => is_Some (rec_rawBytes r)) new /\
    downloads (handleFiles [X; Y] s_abc) = downloads s_abc /\
    progress (handleFiles [X; Y] s_abc) = progress s_abc.
Proof.
  split; [reflexivity|].
  exact (handleFiles_only_appends [X; Y] s_abc wf_s_abc).
Defined.

Lemma no_empty_download_witness :
  (dl_pages <$> downloads (mergeBtn_click false now s_abc)) = [["A1"; "B1"; "C1"]] /\
  Forall (fun d => dl_pages d <> []) (downloads (mergeBtn_click false now s_abc)).
Proof.
  split; [reflexivity|].
  apply no_empty_download.
  exact (reachable_step (EvMerge false now) s_abc _ reachable_s_abc eq_refl).
Defined.


(** the hash of the buffer of [A]: 32 bytes 01 *)
Lemma hashFile_is_faithful_witness :
  hashFile (pdf_bytes (Some Byte.x01) ["A1"] : @Bytes w) =
    Some "0101010101010101010101010101010101010101010101010101010101010101" /\
  String.length "0101010101010101010101010101010101010101010101010101010101010101" = 64%nat.
Proof.
  split; [reflexivity|].
  destruct (hashFile_is_faithful (pdf_bytes (Some Byte.x01) ["A1"] : @Bytes w)
              (pdf_bytes (Some Byte.x01) ["A1"] : @Bytes w)) as (_ & _ & Hshape).
  exact (proj1 (Hshape _ eq_refl)).
Defined.

Lemma escapeHtml_is_character_wise_witness :
  escapeHtml "<b>Tom & Jerry</b>" = "&lt;b&gt;Tom &amp; Jerry&lt;/b&gt;" /\
  escapeHtml "a.pdf" = "a.pdf".
Proof.
  split; [reflexivity|].
  destruct (escapeHtml_is_character_wise "a.pdf" "") as (_ & _ & Hsame).
  apply Hsame. vm_compute. repeat constructor.
Defined.

Lemma merge_failed_message_is_short_witness :
  (String.length "No pages were successfully merged" <= 100)%nat /\
  truncate_msg "No pages were successfully merged" = "No pages were successfully merged".
Proof.
  assert (String.length "No pages were successfully merged" <= 100)%nat as Hlen
    by (vm_compute; lia).
  split; [exact Hlen|].
  destruct (merge_failed_message_is_short "No pages were successfully merged")
    as (_ & Hshort & _).
  exact (Hshort Hlen).
Defined.


(** a file of 101 MB *)
Lemma validateFile_reports_one_error_witness :
  MAX_FILE_SIZE CONFIG < file_size (Scenario.big counting) /\
  validateFile (Scenario.big counting) = ["File exceeds 100.0 MB limit"].
Proof.
  assert (MAX_FILE_SIZE CONFIG < file_size (Scenario.big counting)) as Hbig
    by (vm_compute; reflexivity).
  split; [exact Hbig|].
  destruct (validateFile_reports_one_error (Scenario.big counting)) as (_ & _ & _ & Hover).
  exact (Hover Hbig).
Defined.

End MoreSamples.
